(** * The outlier filter of PDAL (filters/OutlierFilter.cpp)

    A shallow embedding of [OutlierFilter::ready], [processRadius],
    [processStatistical] and [run], and the properties of the two
    classifiers, of the statistics they compute and of the orchestration
    around them.

    The C++ code computes in [double].  Every definition that touches a
    [double] is written once, over the interface [DoubleOps], and is read at
    two instances: [ieee_double] (binary64, the arithmetic the compiled code
    runs, executable) and [exact_double] (the real numbers, the arithmetic
    the algebraic identities are about). *)

From Stdlib Require Import ZArith Lia Reals Lra Floats String Ascii.
From Stdlib Require Import Sorted Permutation.
From stdpp Require Import base list relations.

Set Default Proof Using "Type".
Local Open Scope nat_scope.
Local Open Scope list_scope.

(** ** Arithmetic of [double] *)

Class DoubleOps (F : Type) := {
  fzero : F;
  fone : F;
  fadd : F -> F -> F;
  fsub : F -> F -> F;
  fmul : F -> F -> F;
  fdiv : F -> F -> F;
  fsqrt : F -> F;
  (** [x < y] of C++ *)
  fltb : F -> F -> bool;
  (** the implicit conversion of a [size_t] counter to [double] *)
  of_count : nat -> F
}.

(** The one law of the comparison that the classification relies on: nothing
    is below itself.  It holds of the real numbers and of binary64, where a
    NaN compares false with everything. *)
Class DoubleLaws (F : Type) `{DoubleOps F} : Prop := {
  fltb_irrefl : forall x : F, fltb x x = false
}.

Declare Scope dbl_scope.
Delimit Scope dbl_scope with D.
Infix "+" := fadd : dbl_scope.
Infix "-" := fsub : dbl_scope.
Infix "*" := fmul : dbl_scope.
Infix "/" := fdiv : dbl_scope.
Infix "<?" := fltb : dbl_scope.

(** binary64: the operations of the processor.  A counter is converted
    through a 63-bit integer, which is exact below [2^53] and agrees with the
    C++ conversion for every counter below [2^63]. *)
#[export] Instance ieee_double : DoubleOps float := {
  fzero := PrimFloat.zero;
  fone := PrimFloat.one;
  fadd := PrimFloat.add;
  fsub := PrimFloat.sub;
  fmul := PrimFloat.mul;
  fdiv := PrimFloat.div;
  fsqrt := PrimFloat.sqrt;
  fltb := PrimFloat.ltb;
  of_count := fun n => PrimFloat.of_uint63 (Uint63.of_Z (Z.of_nat n))
}.

(** the real numbers: [double] without rounding, overflow or NaN *)
#[export] Instance exact_double : DoubleOps R := {
  fzero := 0%R;
  fone := 1%R;
  fadd := Rplus;
  fsub := Rminus;
  fmul := Rmult;
  fdiv := Rdiv;
  fsqrt := R_sqrt.sqrt;
  fltb := fun x y => if Rlt_dec x y then true else false;
  of_count := INR
}.


(** ** Data *)

(** [pdal::PointId], an index into the view *)
Definition PointId := nat.
Definition PointIdList := list PointId.

(** [struct Indices] of OutlierFilter.hpp *)
Record Indices := { inliers : PointIdList; outliers : PointIdList }.

(** [v.push_back(x)] *)
Definition push_back {A} (v : list A) (x : A) : list A := v ++ [x].

(** [std::iota] over a container of [np] elements, from 0 *)
Definition iota (np : nat) : list PointId := seq 0 np.

Definition UINT64_MOD : Z := 2 ^ 64.
Definition INT_MAX : Z := 2 ^ 31 - 1.

(** [size_t(i)] for an [int] i: conversion modulo [2^64] *)
Definition size_t_of_int (i : Z) : Z := (i mod UINT64_MOD)%Z.

Section Numeric.
Context {F : Type} `{DoubleOps F}.

(** The members of [OutlierFilter] that [addArgs] fills in. *)
Record Config := {
  m_method : string;
  m_minK : Z;
  m_radius : F;
  m_meanK : Z;
  m_multiplier : F;
  m_class : Z;
  m_threads : nat
}.

(** A point of the view: its position, read by the spatial index only, and
    its [Dimension::Id::Classification]. *)
Record Point := { pt_x : F; pt_y : F; pt_z : F; pt_class : Z }.
Definition PointView := list Point.

(** [view->setField(Dimension::Id::Classification, i, c)].  Every index the
    filter passes is below [view->size()] (see [outliers_in_range] below);
    beyond the size this model leaves the view as it is. *)
Definition setField_Classification (v : PointView) (i : PointId) (c : Z)
  : PointView :=
  match v !! i with
  | Some p => <[i := {| pt_x := pt_x p; pt_y := pt_y p; pt_z := pt_z p;
                        pt_class := c |}]> v
  | None => v
  end.

(** [KD3Index]: pdal/KDIndex.hpp is not part of the sources; the queries are
    taken as they are called.  [kd_radius idx r] is the list
    [index.radius(idx, r)]; [kd_knnSearch idx count] is the contents of the
    vector [sqr_dists], allocated with [count] entries, after
    [index.knnSearch(idx, count, &indices, &sqr_dists)]. *)
Record KD3Index := {
  kd_radius : PointId -> F -> PointIdList;
  kd_knnSearch : PointId -> nat -> list F
}.

(** *** The statistics of [processStatistical] *)

(** [point_count_t count = m_meanK + 1;] *)
Definition knn_count (cfg : Config) : nat :=
  Z.to_nat (size_t_of_int (m_meanK cfg + 1)).

(** One turn of [for (size_t j = 1; j < count; ++j)]:
    [delta = std::sqrt(sqr_dists[j]) - tmp_distance;
     tmp_distance += (delta / j);] *)
Definition local_mean_step (sqr_dists : list F) (tmp_distance : F) (j : nat)
  : F :=
  let delta := (fsqrt (nth j sqr_dists fzero) - tmp_distance)%D in
  (tmp_distance + delta / of_count j)%D.

Definition local_mean (count : nat) (sqr_dists : list F) (tmp_distance : F)
  : F :=
  foldl (local_mean_step sqr_dists) tmp_distance (seq 1 (count - 1)).

(** The accumulators [n], [M1], [M2]. *)
Record Moments := { mo_n : nat; mo_M1 : F; mo_M2 : F }.

Definition moments_init : Moments :=
  {| mo_n := 0; mo_M1 := fzero; mo_M2 := fzero |}.

(** One turn of [for (auto const& d : distances)]. *)
Definition moments_step (s : Moments) (d : F) : Moments :=
  let n1 := mo_n s in
  let n := S n1 in
  let delta := (d - mo_M1 s)%D in
  let delta_n := (delta / of_count n)%D in
  {| mo_n := n;
     mo_M1 := (mo_M1 s + delta_n)%D;
     mo_M2 := (mo_M2 s + delta * delta_n * of_count n1)%D |}.

Definition moments (distances : list F) : Moments :=
  foldl moments_step moments_init distances.

(** [n - 1.0] *)
Definition variance_divisor (s : Moments) : F :=
  (of_count (mo_n s) - fone)%D.

(** [double variance = M2 / (n - 1.0);] *)
Definition variance (s : Moments) : F := (mo_M2 s / variance_divisor s)%D.

(** [double threshold = mean + m_multiplier * stdev;] *)
Definition threshold (cfg : Config) (distances : list F) : F :=
  let s := moments distances in
  let mean := mo_M1 s in
  let stdev := fsqrt (variance s) in
  (mean + m_multiplier cfg * stdev)%D.

(** One turn of [for (PointId i = 0; i < np; ++i)]. *)
Definition classify_step (distances : list F) (thr : F) (ind : Indices)
  (i : PointId) : Indices :=
  if (nth i distances fzero <? thr)%D
  then {| inliers := push_back (inliers ind) i; outliers := outliers ind |}
  else {| inliers := inliers ind; outliers := push_back (outliers ind) i |}.

Definition classify (np : nat) (distances : list F) (thr : F) : Indices :=
  foldl (classify_step distances thr) {| inliers := []; outliers := [] |}
        (seq 0 np).

(** the test of the classification pass on point [i] *)
Definition below (distances : list F) (thr : F) (i : PointId) : bool :=
  (nth i distances fzero <? thr)%D.

(** *** The computations the statistics are compared with *)

(** the sum of a list, from [0.0], left to right *)
Definition fsum (xs : list F) : F := foldl fadd fzero xs.

(** the arithmetic mean: the sum over the number of values *)
Definition naive_mean (xs : list F) : F :=
  (fsum xs / of_count (length xs))%D.

(** the two-pass sample variance: the squared deviations from the mean of
    the first pass, summed, over [n - 1] *)
Definition naive_variance (xs : list F) : F :=
  let m := naive_mean xs in
  (fsum ((fun x => (x - m) * (x - m)) <$> xs) / of_count (length xs - 1))%D.

(** the Euclidean distances to the [K] neighbours that follow the query
    point, which is at position 0 of the answer *)
Definition neighbor_distances (K : nat) (sqr_dists : list F) : list F :=
  fsqrt <$> take K (drop 1 sqr_dists).

(** The update of the global fold as section 4.3 of the specification words
    it: [n += 1], [delta = x - M1], [M1 += delta / n],
    [M2 += delta * (x - M1) * (n-1)]. *)
Definition spec_moments_step (s : Moments) (x : F) : Moments :=
  let n := S (mo_n s) in
  let delta := (x - mo_M1 s)%D in
  let M1' := (mo_M1 s + delta / of_count n)%D in
  {| mo_n := n;
     mo_M1 := M1';
     mo_M2 := (mo_M2 s + delta * (x - M1') * of_count (n - 1))%D |}.

Definition spec_moments (xs : list F) : Moments :=
  foldl spec_moments_step moments_init xs.

(** The same update without the factor [(n-1)]: Welford's. *)
Definition welford_step (s : Moments) (x : F) : Moments :=
  let n := S (mo_n s) in
  let delta := (x - mo_M1 s)%D in
  let M1' := (mo_M1 s + delta / of_count n)%D in
  {| mo_n := n;
     mo_M1 := M1';
     mo_M2 := (mo_M2 s + delta * (x - M1'))%D |}.

Definition welford_moments (xs : list F) : Moments :=
  foldl welford_step moments_init xs.

(** An index partition of a view of [np] points: every index below [np]
    occurs once in the two lists taken together, and no other index occurs
    in them. *)
Definition Index_Partition (np : nat) (ind : Indices) : Prop :=
  forall i : PointId,
    count_occ Nat.eq_dec (inliers ind) i + count_occ Nat.eq_dec (outliers ind) i
    = if i <? np then 1 else 0.

End Numeric.

Arguments Config F : clear implicits.
Arguments Point F : clear implicits.
Arguments PointView F : clear implicits.
Arguments KD3Index F : clear implicits.
Arguments Moments F : clear implicits.


(** ** The worker pool

    Both classifiers fill a [std::deque] with the indices [0 .. np-1], start
    [m_threads] tasks on a [ThreadPool] and join them.  Every task runs the
    same loop; the tasks interleave at the boundaries of the two critical
    sections.

    Modelled from the spec: [ThreadPool] (pdal/util/ThreadPool.hpp is not
    part of the sources) runs the submitted tasks concurrently and [join]
    returns once every task has returned.  The interleaving is arbitrary: a
    schedule names, at every step, which of the tasks that have not returned
    moves next. *)

Section Pool.
Context {Sh Res : Type}.

(** the unlocked work on a popped index, which may read the shared result *)
Variable compute : PointId -> Sh -> Res.
(** the merge of one result under the result lock *)
Variable merge : PointId -> Res -> Sh -> Sh.

(** Where a task stands in its loop. *)
Inductive Worker :=
| AtQueue                               (* about to take [queue_lock] *)
| Working (idx : PointId)               (* popped [idx], query not yet made *)
| AtResult (idx : PointId) (r : Res)    (* about to take the result lock *)
| Returned.                             (* saw the queue empty *)

Record Pool := {
  point_indices : list PointId;
  workers : list Worker;
  shared : Sh
}.

(** One atomic move of task [t]; [None] when [t] is not a live task. *)
Definition thread_step (t : nat) (st : Pool) : option Pool :=
  match workers st !! t with
  | Some AtQueue =>
      match point_indices st with
      | [] =>
          Some {| point_indices := [];
                  workers := <[t := Returned]> (workers st);
                  shared := shared st |}
      | idx :: rest =>
          Some {| point_indices := rest;
                  workers := <[t := Working idx]> (workers st);
                  shared := shared st |}
      end
  | Some (Working idx) =>
      Some {| point_indices := point_indices st;
              workers := <[t := AtResult idx (compute idx (shared st))]>
                           (workers st);
              shared := shared st |}
  | Some (AtResult idx r) =>
      Some {| point_indices := point_indices st;
              workers := <[t := AtQueue]> (workers st);
              shared := merge idx r (shared st) |}
  | Some Returned | None => None
  end.

Definition pool_step (st st' : Pool) : Prop :=
  exists t, thread_step t st = Some st'.

Definition is_returned (w : Worker) : bool :=
  match w with Returned => true | _ => false end.

(** [thread_pool->join()] has returned *)
Definition joined (st : Pool) : Prop :=
  Forall (fun w => w = Returned) (workers st).

(** the tasks that can still move *)
Definition runnable (st : Pool) : list nat :=
  List.filter
    (fun t => match workers st !! t with
              | Some w => negb (is_returned w)
              | None => false
              end)
    (seq 0 (length (workers st))).

(** the state after [thread_pool->add] of [threads] tasks *)
Definition pool_init (threads np : nat) (s0 : Sh) : Pool :=
  {| point_indices := iota np;
     workers := replicate threads AtQueue;
     shared := s0 |}.

(** Runs the pool under a schedule: at every step the head of [sched]
    picks one of the runnable tasks (the first one once [sched] is used
    up).  Every move uses up one unit of [pool_work], so that the fuel
    [go_join] gives is enough ([pool_run_joined]), and every execution of
    [pool_step] that ends joined is the run under some schedule
    ([pool_run_complete]). *)
Fixpoint pool_run (fuel : nat) (sched : list nat) (st : Pool) : Pool :=
  match fuel with
  | 0 => st
  | S fuel' =>
      match runnable st with
      | [] => st
      | t0 :: ts =>
          let t := nth (hd 0 sched `mod` length (t0 :: ts)) (t0 :: ts) t0 in
          match thread_step t st with
          | Some st' => pool_run fuel' (tl sched) st'
          | None => st
          end
      end
  end.

(** the number of moves left to a task *)
Definition worker_work (w : Worker) : nat :=
  match w with
  | AtQueue => 1
  | Working _ => 3
  | AtResult _ _ => 2
  | Returned => 0
  end.

(** the number of moves left to the pool *)
Definition pool_work (st : Pool) : nat :=
  3 * length (point_indices st) + sum_list (worker_work <$> workers st).

(** [thread_pool->go(); thread_pool->join();] *)
Definition go_join (threads np : nat) (s0 : Sh) (sched : list nat) : Pool :=
  let st := pool_init threads np s0 in
  pool_run (pool_work st) sched st.

(** the indices that tasks hold *)
Definition held_of (w : Worker) : list PointId :=
  match w with
  | Working idx | AtResult idx _ => [idx]
  | AtQueue | Returned => []
  end.

Definition held (ws : list Worker) : list PointId :=
  concat (held_of <$> ws).

(** the indices not yet merged *)
Definition pending (st : Pool) : list PointId :=
  point_indices st ++ held (workers st).

(** What every execution of the pool keeps: the number of tasks, and that a
    task returns only once the queue is empty, which never fills again. *)
Definition pool_inv (threads : nat) (st : Pool) : Prop :=
  length (workers st) = threads /\
  ((exists t, workers st !! t = Some Returned) -> point_indices st = []).

End Pool.

Arguments Worker Res : clear implicits.
Arguments Pool Sh Res : clear implicits.
Arguments AtQueue {Res}.
Arguments Returned {Res}.
Arguments Working {Res} idx.

(** ** The filter *)

Inductive LogLevel := Warning | Debug2.

Inductive LogEntry :=
| ThreadsBelowOne (threads : nat)
| ThreadsAboveProcessors (threads hw_concurrency : nat)
| MethodUnrecognized
| WouldRemoveAllPoints
| LabeledOutliers (n : nat)
| NoOutliers.

Definition level (e : LogEntry) : LogLevel :=
  match e with
  | LabeledOutliers _ => Debug2
  | _ => Warning
  end.

(** Modelled from the spec: [Utils::iequals] (pdal/util/Utils.hpp is not
    part of the sources) compares two strings without regard to the case of
    ASCII letters. *)
Definition toupper (c : ascii) : ascii :=
  let n := nat_of_ascii c in
  if (97 <=? n) && (n <=? 122) then ascii_of_nat (n - 32) else c.

Fixpoint iequals (s s2 : string) : bool :=
  match s, s2 with
  | EmptyString, EmptyString => true
  | String c r, String c2 r2 =>
      Ascii.eqb (toupper c) (toupper c2) && iequals r r2
  | _, _ => false
  end.

(** the handle [inView] through which [run] reaches the view *)
Inductive PointViewPtr := InView.
Definition PointViewSet := list PointViewPtr.

Section Filter.
Context {F : Type} `{DoubleOps F}.

(** the external index [KD3Index], constructed over the view and built *)
Variable build : PointView F -> KD3Index F.

(** [OutlierFilter::ready]; [hw_concurrency] is
    [std::thread::hardware_concurrency()]. *)
Definition ready (hw_concurrency : nat) (cfg : Config F)
  : Config F * list LogEntry :=
  let '(threads, log1) :=
    if m_threads cfg <? 1
    then (1, [ThreadsBelowOne (m_threads cfg)])
    else (m_threads cfg, []) in
  let log2 :=
    if hw_concurrency <? threads
    then [ThreadsAboveProcessors threads hw_concurrency]
    else [] in
  ({| m_method := m_method cfg; m_minK := m_minK cfg;
      m_radius := m_radius cfg; m_meanK := m_meanK cfg;
      m_multiplier := m_multiplier cfg; m_class := m_class cfg;
      m_threads := threads |},
   log1 ++ log2).

(** *** [processRadius] *)

(** [auto ids = index.radius(idx, m_radius);] *)
Definition radius_query (cfg : Config F) (index : KD3Index F)
  (idx : PointId) (_ : Indices) : PointIdList :=
  kd_radius index idx (m_radius cfg).

(** [ids.size() > size_t(m_minK)] *)
Definition enough_neighbors (cfg : Config F) (ids : PointIdList) : bool :=
  (size_t_of_int (m_minK cfg) <? Z.of_nat (length ids))%Z.

(** the critical section under [indices_lock] *)
Definition radius_merge (cfg : Config F) (idx : PointId) (ids : PointIdList)
  (ind : Indices) : Indices :=
  if enough_neighbors cfg ids
  then {| inliers := push_back (inliers ind) idx; outliers := outliers ind |}
  else {| inliers := inliers ind; outliers := push_back (outliers ind) idx |}.

Definition radius_pool (cfg : Config F) (inView : PointView F)
  (sched : list nat) : Pool Indices PointIdList :=
  let index := build inView in
  let np := length inView in
  go_join (radius_query cfg index) (radius_merge cfg) (m_threads cfg) np
          {| inliers := []; outliers := [] |} sched.

Definition processRadius (cfg : Config F) (inView : PointView F)
  (sched : list nat) : Indices :=
  shared (radius_pool cfg inView sched).

(** What every execution of the pool of [processRadius] keeps: each index
    of the view is pending or classified, once; a task at the result lock
    holds the answer of the query for its index; the classified indices are
    on the side the comparison puts them. *)
Definition radius_inv (cfg : Config F) (index : KD3Index F) (np : nat)
  (st : Pool Indices PointIdList) : Prop :=
  pool_inv (m_threads cfg) st /\
  pending st ++ inliers (shared st) ++ outliers (shared st) ≡ₚ seq 0 np /\
  (forall t idx r, workers st !! t = Some (AtResult idx r) ->
     r = kd_radius index idx (m_radius cfg)) /\
  (forall i, i ∈ inliers (shared st) ->
     enough_neighbors cfg (kd_radius index i (m_radius cfg)) = true) /\
  (forall i, i ∈ outliers (shared st) ->
     enough_neighbors cfg (kd_radius index i (m_radius cfg)) = false).

(** *** [processStatistical] *)

(** the unlocked work of a task: the query, the read of [distances[idx]] and
    the loop over the neighbours *)
Definition statistical_query (cfg : Config F) (index : KD3Index F)
  (idx : PointId) (distances : list F) : F :=
  let count := knn_count cfg in
  let sqr_dists := kd_knnSearch index idx count in
  let tmp_distance := nth idx distances fzero in
  local_mean count sqr_dists tmp_distance.

(** the critical section under [distances_lock]:
    [distances[idx] = tmp_distance;] *)
Definition statistical_merge (idx : PointId) (tmp_distance : F)
  (distances : list F) : list F :=
  <[idx := tmp_distance]> distances.

Definition statistical_pool (cfg : Config F) (inView : PointView F)
  (sched : list nat) : Pool (list F) F :=
  let index := build inView in
  let np := length inView in
  go_join (statistical_query cfg index) statistical_merge (m_threads cfg) np
          (replicate np fzero) sched.

(** the local mean of [idx]: the loop started from the initial [0.0] of
    [distances[idx]] *)
Definition expected_local_mean (cfg : Config F) (index : KD3Index F)
  (idx : PointId) : F :=
  local_mean (knn_count cfg) (kd_knnSearch index idx (knn_count cfg)) fzero.

(** What every execution of the pool of [processStatistical] keeps: no
    index is pending twice; the slot of a pending index still holds its
    initial [0.0] until the task that popped it stores the local mean; the
    slot of every other index holds its local mean. *)
Definition statistical_inv (cfg : Config F) (index : KD3Index F) (np : nat)
  (st : Pool (list F) F) : Prop :=
  pool_inv (m_threads cfg) st /\
  length (shared st) = np /\
  NoDup (pending st) /\
  (forall i, i ∈ pending st -> i < np) /\
  (forall i, i ∈ point_indices st -> shared st !! i = Some fzero) /\
  (forall t idx, workers st !! t = Some (Working idx) ->
     shared st !! idx = Some fzero) /\
  (forall t idx r, workers st !! t = Some (AtResult idx r) ->
     r = expected_local_mean cfg index idx) /\
  (forall i, i < np -> i ∉ pending st ->
     shared st !! i = Some (expected_local_mean cfg index i)).

(** the vector [distances] after the join *)
Definition local_means (cfg : Config F) (inView : PointView F)
  (sched : list nat) : list F :=
  shared (statistical_pool cfg inView sched).

Definition processStatistical (cfg : Config F) (inView : PointView F)
  (sched : list nat) : Indices :=
  let np := length inView in
  let distances := local_means cfg inView sched in
  classify np distances (threshold cfg distances).

(** *** [run] *)

Record RunResult := {
  (** the returned set of views *)
  viewSet : PointViewSet;
  (** the contents of the view behind [inView] when [run] returns *)
  view_after : PointView F;
  log : list LogEntry
}.

(** the dispatch on [m_method]; [None] is the final [else] *)
Definition select_indices (cfg : Config F) (inView : PointView F)
  (sched : list nat) : option Indices :=
  if iequals (m_method cfg) "statistical"
  then Some (processStatistical cfg inView sched)
  else if iequals (m_method cfg) "radius"
  then Some (processRadius cfg inView sched)
  else None.

(** [for (const auto& i : indices.outliers)
       inView->setField(Dimension::Id::Classification, i, m_class);] *)
Definition label_outliers (cfg : Config F) (inView : PointView F)
  (ids : PointIdList) : PointView F :=
  foldl (fun v i => setField_Classification v i (m_class cfg)) inView ids.

Definition empty {A} (v : list A) : bool :=
  match v with [] => true | _ => false end.

Definition run (cfg : Config F) (inView : PointView F) (sched : list nat)
  : RunResult :=
  if length inView =? 0
  then {| viewSet := []; view_after := inView; log := [] |}
  else
    match select_indices cfg inView sched with
    | None =>
        {| viewSet := [InView]; view_after := inView;
           log := [MethodUnrecognized] |}
    | Some indices =>
        if empty (inliers indices)
        then {| viewSet := [InView]; view_after := inView;
                log := [WouldRemoveAllPoints] |}
        else if negb (empty (outliers indices))
        then {| viewSet := [InView];
                view_after := label_outliers cfg inView (outliers indices);
                log := [LabeledOutliers (length (outliers indices))] |}
        else {| viewSet := [InView]; view_after := inView;
                log := [NoOutliers] |}
    end.

End Filter.

Arguments RunResult F : clear implicits.

(** ** A sample run

    Modelled from the spec: the spatial index (sections 2 and 6) answers
    [radius] with the points within the radius and [knn] with the squared
    distances of the nearest points in ascending order, the query point
    first at distance 0.  [sample_index] answers by exhaustive search; the
    entries of [sqr_dists] beyond the number of points keep the [0.0] the
    vector was allocated with. *)

Definition sqr_dist (p q : Point float) : float :=
  let dx := (pt_x p - pt_x q)%float in
  let dy := (pt_y p - pt_y q)%float in
  let dz := (pt_z p - pt_z q)%float in
  (dx * dx + dy * dy + dz * dz)%float.

Fixpoint insert_ascending (x : float) (l : list float) : list float :=
  match l with
  | [] => [x]
  | y :: l' =>
      if PrimFloat.leb x y then x :: l else y :: insert_ascending x l'
  end.

Definition sort_ascending (l : list float) : list float :=
  foldr insert_ascending [] l.

Definition sample_index (v : PointView float) : KD3Index float :=
  {| kd_radius := fun idx r =>
       match v !! idx with
       | Some p =>
           List.filter
             (fun j => match v !! j with
                       | Some q => PrimFloat.leb (sqr_dist p q) (r * r)
                       | None => false
                       end)
             (seq 0 (length v))
       | None => []
       end;
     kd_knnSearch := fun idx count =>
       match v !! idx with
       | Some p =>
           take count (sort_ascending (sqr_dist p <$> v)
                       ++ replicate count 0%float)
       | None => replicate count 0%float
       end |}.

(** Four points on a line, at x = 0, 1, 2 and 10: within radius 3 the
    first three see each other and the last one sees itself only. *)
Definition sample_point (x : float) : Point float :=
  {| pt_x := x; pt_y := 0%float; pt_z := 0%float; pt_class := 1 |}.

Definition sample_view : PointView float :=
  [sample_point 0; sample_point 1; sample_point 2; sample_point 10]%float.

Definition sample_cfg (method : string) : Config float :=
  {| m_method := method; m_minK := 2; m_radius := 3%float; m_meanK := 2;
     m_multiplier := 1%float; m_class := 7; m_threads := 2 |}.








(** ** Notions for the further properties *)

Definition INT_MIN : Z := - 2 ^ 31.

(** the point [p] with the classification [c]: what [setField] leaves *)
Definition relabel {F} (c : Z) (p : Point F) : Point F :=
  {| pt_x := pt_x p; pt_y := pt_y p; pt_z := pt_z p; pt_class := c |}.

(** the configuration [cfg] run with [threads] threads *)
Definition with_threads {F} (cfg : Config F) (threads : nat) : Config F :=
  {| m_method := m_method cfg; m_minK := m_minK cfg;
     m_radius := m_radius cfg; m_meanK := m_meanK cfg;
     m_multiplier := m_multiplier cfg; m_class := m_class cfg;
     m_threads := threads |}.

(** the configuration [cfg] with another [min_k] *)
Definition with_minK {F} (cfg : Config F) (minK : Z) : Config F :=
  {| m_method := m_method cfg; m_minK := minK;
     m_radius := m_radius cfg; m_meanK := m_meanK cfg;
     m_multiplier := m_multiplier cfg; m_class := m_class cfg;
     m_threads := m_threads cfg |}.

(** the configuration [cfg] with another [mean_k] *)
Definition with_meanK {F} (cfg : Config F) (meanK : Z) : Config F :=
  {| m_method := m_method cfg; m_minK := m_minK cfg;
     m_radius := m_radius cfg; m_meanK := meanK;
     m_multiplier := m_multiplier cfg; m_class := m_class cfg;
     m_threads := m_threads cfg |}.

(** the test of [processRadius] on point [p]: whether the query for [p]
    returns more than [min_k] points *)
Definition radius_keeps {F} (cfg : Config F) (index : KD3Index F)
  (p : PointId) : bool :=
  enough_neighbors cfg (kd_radius index p (m_radius cfg)).

(** the local means of a view of [np] points, point by point *)
Definition all_local_means {F} `{DoubleOps F} (cfg : Config F)
  (index : KD3Index F) (np : nat) : list F :=
  expected_local_mean cfg index <$> seq 0 np.

(** the test of [processStatistical] on point [p]: whether the local mean
    of [p] is below the threshold of all the local means *)
Definition statistical_keeps {F} `{DoubleOps F} (cfg : Config F)
  (index : KD3Index F) (np : nat) (p : PointId) : bool :=
  let distances := all_local_means cfg index np in
  below distances (threshold cfg distances) p.

(** What [run] does with a view that has a point, once the classifier has
    applied the test [keep] to every point: the points after [run], and the
    one entry of the log. *)
Definition labelled {F} (cfg : Config F) (keep : PointId -> bool)
  (np : nat) (j : PointId) (p : Point F) : Point F :=
  if existsb keep (seq 0 np) && negb (keep j)
  then relabel (m_class cfg) p else p.

Definition outcome_log (keep : PointId -> bool) (np : nat) : list LogEntry :=
  if negb (existsb keep (seq 0 np)) then [WouldRemoveAllPoints]
  else if forallb keep (seq 0 np) then [NoOutliers]
  else [LabeledOutliers
          (length (List.filter (fun p => negb (keep p)) (seq 0 np)))].

(** * Properties *)

(** ** The worker pool *)

Section PoolFacts.
Context {Sh Res : Type}.
Variable compute : PointId -> Sh -> Res.
Variable merge : PointId -> Res -> Sh -> Sh.

Local Abbreviation tstep := (thread_step compute merge).
Local Abbreviation pstep := (pool_step compute merge).
Local Abbreviation prun := (pool_run compute merge).

(** The four moves of a task. *)
Lemma thread_step_cases (t : nat) (st st' : Pool Sh Res) :
  tstep t st = Some st' ->
  (workers st !! t = Some AtQueue /\ point_indices st = [] /\
   st' = {| point_indices := []; workers := <[t := Returned]> (workers st);
            shared := shared st |}) \/
  (exists idx rest, workers st !! t = Some AtQueue /\
     point_indices st = idx :: rest /\
     st' = {| point_indices := rest;
              workers := <[t := Working idx]> (workers st);
              shared := shared st |}) \/
  (exists idx, workers st !! t = Some (Working idx) /\
     st' = {| point_indices := point_indices st;
              workers := <[t := AtResult idx (compute idx (shared st))]>
                           (workers st);
              shared := shared st |}) \/
  (exists idx r, workers st !! t = Some (AtResult idx r) /\
     st' = {| point_indices := point_indices st;
              workers := <[t := AtQueue]> (workers st);
              shared := merge idx r (shared st) |}).
Proof.
  unfold thread_step.
  destruct (workers st !! t) as [[| idx | idx r |]|] eqn:Hw; try discriminate.
  - destruct (point_indices st) as [|idx rest] eqn:Hq; intros [= <-].
    + left. auto.
    + right; left. exists idx, rest. auto.
  - intros [= <-]. right; right; left. exists idx. auto.
  - intros [= <-]. right; right; right. exists idx, r. auto.
Qed.

Lemma sum_list_insert {A} (f : A -> nat) (l : list A) (i : nat) (x y : A) :
  l !! i = Some x ->
  sum_list (f <$> <[i := y]> l) + f x = sum_list (f <$> l) + f y.
Proof.
  revert i. induction l as [|a l IH]; intros [|i] Hi; simplify_eq/=.
  - lia.
  - specialize (IH i Hi). lia.
Qed.

(** Every move uses up one unit of work: no execution of the pool is longer
    than [pool_work] of its first state. *)
Lemma thread_step_work (t : nat) (st st' : Pool Sh Res) :
  tstep t st = Some st' -> pool_work st = S (pool_work st').
Proof.
  intros Hstep. unfold pool_work.
  destruct (thread_step_cases _ _ _ Hstep)
    as [(Hw & Hq & ->)|[(idx & rest & Hw & Hq & ->)|[(idx & Hw & ->)|
        (idx & r & Hw & ->)]]]; simpl;
    [pose proof (sum_list_insert worker_work _ _ _ Returned Hw)
    |pose proof (sum_list_insert worker_work _ _ _ (Working idx) Hw)
    |pose proof (sum_list_insert worker_work _ _ _
                   (AtResult idx (compute idx (shared st))) Hw)
    |pose proof (sum_list_insert worker_work _ _ _ AtQueue Hw)];
    rewrite ?Hq; simpl in *; lia.
Qed.

Lemma nsteps_pool_work (n : nat) (st st' : Pool Sh Res) :
  nsteps pstep n st st' -> pool_work st = n + pool_work st'.
Proof.
  induction 1 as [|n x y z [t Ht] _ IH]; [done|].
  apply thread_step_work in Ht. lia.
Qed.

Lemma elem_of_runnable (t : nat) (st : Pool Sh Res) :
  In t (runnable st) <->
  exists w, workers st !! t = Some w /\ w <> Returned.
Proof.
  unfold runnable. rewrite filter_In, in_seq. split.
  - intros [_ Hb]. destruct (workers st !! t) as [w|]; [|done].
    exists w. split; [done|]. by destruct w.
  - intros (w & Hw & Hne). split.
    + apply lookup_lt_Some in Hw. lia.
    + rewrite Hw. by destruct w.
Qed.

(** A task that has not returned can always move: no lock is held across a
    move, so the pool cannot block. *)
Lemma runnable_step (t : nat) (st : Pool Sh Res) :
  In t (runnable st) -> is_Some (tstep t st).
Proof.
  intros (w & Hw & Hne)%elem_of_runnable. unfold thread_step.
  rewrite Hw. destruct w; try done.
  by destruct (point_indices st).
Qed.

Lemma runnable_nil_joined (st : Pool Sh Res) :
  runnable st = [] <-> joined st.
Proof.
  unfold joined. rewrite Forall_lookup. split.
  - intros Hnil t w Hw. destruct (decide (is_returned w = true)) as [|Hne].
    + by destruct w.
    + assert (Hin : In t (runnable st)).
      { apply elem_of_runnable. exists w. split; [done|]. intros ->. by apply Hne. }
      rewrite Hnil in Hin. destruct Hin.
  - intros Hall. destruct (runnable st) as [|t ts] eqn:Hr; [done|].
    assert (Hin : In t (runnable st)) by (rewrite Hr; by left).
    apply elem_of_runnable in Hin as (w & Hw & Hne).
    by specialize (Hall t w Hw).
Qed.

Lemma joined_no_step (t : nat) (st : Pool Sh Res) :
  joined st -> tstep t st = None.
Proof.
  unfold joined. rewrite Forall_lookup. intros Hall.
  unfold thread_step.
  destruct (workers st !! t) as [w|] eqn:Hw; [|done].
  by rewrite (Hall t w Hw).
Qed.

Lemma pool_run_S (fuel : nat) (sched : list nat) (st : Pool Sh Res) :
  prun (S fuel) sched st =
  match runnable st with
  | [] => st
  | t0 :: ts =>
      match tstep (nth (hd 0 sched `mod` length (t0 :: ts)) (t0 :: ts) t0) st
      with
      | Some st' => prun fuel (tl sched) st'
      | None => st
      end
  end.
Proof. reflexivity. Qed.

(** The run under a schedule is an execution of the pool. *)
Lemma pool_run_rtc (fuel : nat) (sched : list nat) (st : Pool Sh Res) :
  rtc pstep st (prun fuel sched st).
Proof.
  revert sched st. induction fuel as [|fuel IH]; intros sched st.
  { constructor. }
  rewrite pool_run_S.
  destruct (runnable st) as [|t0 ts]; [constructor|].
  destruct (tstep _ st) as [st'|] eqn:Hstep; [|constructor].
  eapply rtc_l; [by eexists|]. apply IH.
Qed.

(** With [pool_work] moves of fuel the run ends with every task returned. *)
Lemma pool_run_joined (fuel : nat) (sched : list nat) (st : Pool Sh Res) :
  pool_work st <= fuel -> joined (prun fuel sched st).
Proof.
  revert sched st. induction fuel as [|fuel IH]; intros sched st Hfuel.
  - apply runnable_nil_joined.
    destruct (runnable st) as [|t ts] eqn:Hr; [done|].
    assert (Hin : In t (runnable st)) by (rewrite Hr; by left).
    apply runnable_step in Hin as [st' Hst'].
    apply thread_step_work in Hst'. simpl in Hfuel. lia.
  - rewrite pool_run_S. destruct (runnable st) as [|t0 ts] eqn:Hr.
    { by apply runnable_nil_joined. }
    set (t := nth (hd 0 sched `mod` length (t0 :: ts)) (t0 :: ts) t0).
    assert (Hin : In t (runnable st)).
    { rewrite Hr. apply nth_In. apply Nat.mod_upper_bound. simpl. lia. }
    destruct (runnable_step _ _ Hin) as [st' Hst']. rewrite Hst'.
    apply IH. apply thread_step_work in Hst'. lia.
Qed.

Lemma thread_step_runnable (t : nat) (st st' : Pool Sh Res) :
  tstep t st = Some st' -> In t (runnable st).
Proof.
  intros Hstep. apply elem_of_runnable.
  destruct (thread_step_cases _ _ _ Hstep)
    as [(Hw & _)|[(idx & rest & Hw & _)|[(idx & Hw & _)|(idx & r & Hw & _)]]];
    eexists; (split; [exact Hw|done]).
Qed.

(** Schedules reach every outcome: an execution of the pool that ends with
    every task returned is the run under some schedule. *)
Lemma pool_run_complete (st st' : Pool Sh Res) :
  rtc pstep st st' -> joined st' ->
  exists sched, prun (pool_work st) sched st = st'.
Proof.
  intros Hrtc Hjoined.
  induction Hrtc as [st|st s1 st' [t Ht] _ IH].
  - exists []. apply runnable_nil_joined in Hjoined.
    destruct (pool_work st); [done|]. by rewrite pool_run_S, Hjoined.
  - destruct (IH Hjoined) as [sched' Hsched'].
    pose proof (thread_step_runnable _ _ _ Ht) as Hin.
    rewrite (thread_step_work _ _ _ Ht), <- Hsched'.
    destruct (runnable st) as [|t0 ts] eqn:Hr; [done|].
    destruct (In_nth _ _ t0 Hin) as (k & Hk & Hnth).
    exists (k :: sched'). rewrite pool_run_S, Hr. cbn [hd tl].
    by rewrite Nat.mod_small, Hnth, Ht.
Qed.

(** A property that holds at first and that every move keeps holds
    throughout the execution. *)
Lemma pool_invariant (I : Pool Sh Res -> Prop) (st st' : Pool Sh Res) :
  (forall t s s', I s -> tstep t s = Some s' -> I s') ->
  I st -> rtc pstep st st' -> I st'.
Proof.
  intros Hkeep Hst Hrtc. induction Hrtc as [|x y z [t Ht] _ IH]; [done|].
  apply IH. by eapply Hkeep.
Qed.

Lemma held_insert (ws : list (Worker Res)) (t : nat) (w w' : Worker Res) :
  ws !! t = Some w ->
  held (<[t := w']> ws) ++ held_of w ≡ₚ held_of w' ++ held ws.
Proof.
  unfold held. revert t.
  induction ws as [|a ws IH]; intros [|t] Ht; simplify_eq/=.
  - rewrite <- app_assoc. f_equiv. apply Permutation_app_comm.
  - rewrite <- app_assoc, (IH t Ht). apply Permutation_app_swap_app.
Qed.

Lemma held_insert_same (ws : list (Worker Res)) (t : nat) (w w' : Worker Res) :
  ws !! t = Some w -> held_of w' = held_of w -> held (<[t := w']> ws) = held ws.
Proof.
  unfold held. revert t.
  induction ws as [|a ws IH]; intros [|t] Ht Heq; simplify_eq/=.
  - by rewrite Heq.
  - by rewrite (IH t Ht Heq).
Qed.

Lemma held_insert_pop (ws : list (Worker Res)) (t : nat) (idx : PointId) :
  ws !! t = Some AtQueue -> held (<[t := Working idx]> ws) ≡ₚ idx :: held ws.
Proof.
  intros Ht. pose proof (held_insert ws t _ (Working idx) Ht) as Hp.
  simpl in Hp. by rewrite app_nil_r in Hp.
Qed.

Lemma held_insert_merge (ws : list (Worker Res)) (t : nat) (idx : PointId)
  (r : Res) :
  ws !! t = Some (AtResult idx r) ->
  held ws ≡ₚ idx :: held (<[t := AtQueue]> ws).
Proof.
  intros Ht. pose proof (held_insert ws t _ AtQueue Ht) as Hp.
  simpl in Hp. rewrite <- Hp. apply Permutation_app_comm.
Qed.

Lemma elem_of_held (ws : list (Worker Res)) (t : nat) (w : Worker Res)
  (i : PointId) :
  ws !! t = Some w -> i ∈ held_of w -> i ∈ held ws.
Proof.
  unfold held. revert t.
  induction ws as [|a ws IH]; intros [|t] Ht Hi; simplify_eq/=;
    rewrite elem_of_app; eauto.
Qed.

Lemma held_joined (st : Pool Sh Res) : joined st -> held (workers st) = [].
Proof.
  unfold joined, held. induction 1 as [|w ws -> _ IH]; [done|]. by simpl.
Qed.

Lemma pool_inv_init (threads np : nat) (s0 : Sh) :
  pool_inv threads (pool_init (Res:=Res) threads np s0).
Proof.
  split; simpl.
  - apply length_replicate.
  - intros (t & Ht). apply lookup_replicate in Ht as [Ht _]. discriminate.
Qed.

Lemma pool_inv_step (threads t : nat) (st st' : Pool Sh Res) :
  pool_inv threads st -> tstep t st = Some st' -> pool_inv threads st'.
Proof.
  intros [Hlen Hret] Hstep.
  destruct (thread_step_cases _ _ _ Hstep)
    as [(Hw & Hq & ->)|[(idx & rest & Hw & Hq & ->)|[(idx & Hw & ->)|
        (idx & r & Hw & ->)]]]; (split; simpl; [by rewrite length_insert|]).
  - done.
  - intros (t' & Ht'). apply list_lookup_insert_Some in Ht'
      as [(_ & [=] & _)|(_ & Ht')].
    rewrite Hret in Hq by eauto. discriminate.
  - intros (t' & Ht'). apply list_lookup_insert_Some in Ht'
      as [(_ & [=] & _)|(_ & Ht')]. eauto.
  - intros (t' & Ht'). apply list_lookup_insert_Some in Ht'
      as [(_ & [=] & _)|(_ & Ht')]. eauto.
Qed.

(** After the join of at least one task nothing is pending. *)
Lemma pool_inv_joined (threads : nat) (st : Pool Sh Res) :
  1 <= threads -> pool_inv threads st -> joined st -> pending st = [].
Proof.
  intros Hthreads [Hlen Hret] Hj. unfold pending.
  rewrite (held_joined _ Hj), app_nil_r. apply Hret.
  destruct (workers st) as [|w ws] eqn:Hws; [simpl in Hlen; lia|].
  exists 0. simpl. f_equal. unfold joined in Hj. rewrite Hws in Hj.
  by apply Forall_cons in Hj as [-> _].
Qed.

End PoolFacts.

(** ** [processRadius] *)

Section RadiusFacts.
Context {F : Type} `{DoubleOps F}.
Variable build : PointView F -> KD3Index F.

Lemma radius_inv_init (cfg : Config F) (index : KD3Index F) (np : nat) :
  radius_inv cfg index np
    (pool_init (m_threads cfg) np {| inliers := []; outliers := [] |}).
Proof.
  split; [apply pool_inv_init|]. unfold pending. simpl.
  assert (Hheld : forall n, held (replicate n (@AtQueue PointIdList)) = []).
  { induction n; [done|]. by simpl. }
  rewrite Hheld, !app_nil_r. split; [done|].
  split; [|split; intros i Hi; by apply elem_of_nil in Hi].
  intros t idx r Ht. apply lookup_replicate in Ht as [Ht _]. discriminate.
Qed.

Lemma radius_inv_step (cfg : Config F) (index : KD3Index F) (np t : nat)
  (st st' : Pool Indices PointIdList) :
  radius_inv cfg index np st ->
  thread_step (radius_query cfg index) (radius_merge cfg) t st = Some st' ->
  radius_inv cfg index np st'.
Proof.
  intros (Hpool & Hperm & Hres & Hin & Hout) Hstep.
  split; [by eapply pool_inv_step|].
  unfold pending in *.
  destruct (thread_step_cases _ _ _ _ _ Hstep)
    as [(Hw & Hq & ->)|[(idx & rest & Hw & Hq & ->)|[(idx & Hw & ->)|
        (idx & r & Hw & ->)]]]; simpl.
  - (* the task returns *)
    rewrite (held_insert_same _ _ _ Returned Hw eq_refl).
    rewrite Hq in Hperm. split; [done|]. split; [|done].
    intros t' idx r Ht'. apply list_lookup_insert_Some in Ht'
      as [(_ & [=] & _)|(_ & Ht')]. eauto.
  - (* the task pops [idx] *)
    rewrite (held_insert_pop _ _ idx Hw).
    rewrite Hq in Hperm. split.
    { rewrite <- Hperm. solve_Permutation. }
    split; [|done].
    intros t' idx' r Ht'. apply list_lookup_insert_Some in Ht'
      as [(_ & [=] & _)|(_ & Ht')]. eauto.
  - (* the task queries the index *)
    rewrite (held_insert_same _ _ (Working idx) (AtResult idx _) Hw eq_refl).
    split; [done|]. split; [|done].
    intros t' idx' r Ht'. apply list_lookup_insert_Some in Ht'
      as [(_ & [= <- <-] & _)|(_ & Ht')]; [done|eauto].
  - (* the task files [idx] *)
    pose proof (Hres _ _ _ Hw) as ->.
    rewrite (held_insert_merge _ _ _ _ Hw) in Hperm.
    unfold radius_merge.
    destruct (enough_neighbors cfg _) eqn:Hen; simpl; unfold push_back.
    + split.
      { rewrite <- Hperm. solve_Permutation. }
      split.
      { intros t' idx' r Ht'. apply list_lookup_insert_Some in Ht'
          as [(_ & [=] & _)|(_ & Ht')]. eauto. }
      split; [|done].
      intros i [Hi| ->%list_elem_of_singleton]%elem_of_app; auto.
    + split.
      { rewrite <- Hperm. solve_Permutation. }
      split.
      { intros t' idx' r Ht'. apply list_lookup_insert_Some in Ht'
          as [(_ & [=] & _)|(_ & Ht')]. eauto. }
      split; [done|].
      intros i [Hi| ->%list_elem_of_singleton]%elem_of_app; auto.
Qed.

End RadiusFacts.

(** ** [processStatistical]: the parallel phase *)

Section StatisticalPoolFacts.
Context {F : Type} `{DoubleOps F}.
Variable build : PointView F -> KD3Index F.

Lemma held_replicate_AtQueue {Res} (n : nat) :
  held (replicate n (@AtQueue Res)) = [].
Proof. induction n; [done|]. by simpl. Qed.

Lemma statistical_inv_init (cfg : Config F) (index : KD3Index F) (np : nat) :
  statistical_inv cfg index np
    (pool_init (m_threads cfg) np (replicate np fzero)).
Proof.
  split; [apply pool_inv_init|]. unfold pending. simpl.
  rewrite held_replicate_AtQueue, app_nil_r. unfold iota.
  split; [apply length_replicate|]. split; [apply NoDup_seq|].
  split; [intros i Hi%elem_of_seq; lia|].
  split.
  { intros i Hi%elem_of_seq. apply lookup_replicate. split; [done|lia]. }
  split.
  { intros t idx Ht. apply lookup_replicate in Ht as [Ht _]. discriminate. }
  split.
  { intros t idx r Ht. apply lookup_replicate in Ht as [Ht _]. discriminate. }
  intros i Hi Hni. exfalso. apply Hni, elem_of_seq. lia.
Qed.

Lemma statistical_inv_step (cfg : Config F) (index : KD3Index F) (np t : nat)
  (st st' : Pool (list F) F) :
  statistical_inv cfg index np st ->
  thread_step (statistical_query cfg index) statistical_merge t st = Some st' ->
  statistical_inv cfg index np st'.
Proof.
  intros (Hpool & Hlen & Hnd & Hlt & Hq0 & Hw0 & Hres & Hfin) Hstep.
  split; [by eapply pool_inv_step|].
  unfold pending in *.
  destruct (thread_step_cases _ _ _ _ _ Hstep)
    as [(Hw & Hq & ->)|[(idx & rest & Hw & Hq & ->)|[(idx & Hw & ->)|
        (idx & r & Hw & ->)]]]; simpl.
  - (* the task returns *)
    rewrite (held_insert_same _ _ _ Returned Hw eq_refl).
    rewrite Hq in *. repeat split; try done.
    + intros t' idx Ht'. apply list_lookup_insert_Some in Ht'
        as [(_ & [=] & _)|(_ & Ht')]. eauto.
    + intros t' idx r Ht'. apply list_lookup_insert_Some in Ht'
        as [(_ & [=] & _)|(_ & Ht')]. eauto.
  - (* the task pops [idx] *)
    assert (Hp : rest ++ held (<[t:=Working idx]> (workers st))
                 ≡ₚ point_indices st ++ held (workers st)).
    { rewrite (held_insert_pop _ _ idx Hw), Hq. solve_Permutation. }
    split; [done|]. split; [by rewrite Hp|].
    split; [intros i Hi; apply Hlt; by rewrite <- Hp|].
    split.
    { intros i Hi. apply Hq0. rewrite Hq. by right. }
    split.
    { intros t' idx' Ht'. apply list_lookup_insert_Some in Ht'
        as [(_ & [= <-] & _)|(_ & Ht')]; [|eauto].
      apply Hq0. rewrite Hq. by left. }
    split.
    { intros t' idx' r Ht'. apply list_lookup_insert_Some in Ht'
        as [(_ & [=] & _)|(_ & Ht')]. eauto. }
    intros i Hi Hni. apply Hfin; [done|]. by rewrite <- Hp.
  - (* the task queries the index and runs the loop *)
    rewrite (held_insert_same _ _ (Working idx) (AtResult idx _) Hw eq_refl).
    repeat split; try done.
    + intros t' idx' Ht'. apply list_lookup_insert_Some in Ht'
        as [(_ & [=] & _)|(_ & Ht')]. eauto.
    + intros t' idx' r Ht'. apply list_lookup_insert_Some in Ht'
        as [(_ & [= <- <-] & _)|(_ & Ht')]; [|eauto].
      unfold statistical_query, expected_local_mean.
      by rewrite (nth_lookup_Some _ _ _ _ (Hw0 _ _ Hw)).
  - (* the task stores its local mean *)
    pose proof (Hres _ _ _ Hw) as ->.
    assert (Hp : point_indices st ++ held (workers st)
                 ≡ₚ idx :: (point_indices st ++
                            held (<[t:=AtQueue]> (workers st)))).
    { rewrite (held_insert_merge _ _ _ _ Hw). solve_Permutation. }
    rewrite Hp in Hnd. apply NoDup_cons in Hnd as [Hidx Hnd].
    assert (Hidx_lt : idx < np).
    { apply Hlt. rewrite Hp. by left. }
    unfold statistical_merge.
    split; [by rewrite length_insert|]. split; [done|].
    split; [intros i Hi; apply Hlt; rewrite Hp; by right|].
    split.
    { intros i Hi. rewrite list_lookup_insert_ne; [by apply Hq0|].
      intros ->. apply Hidx, elem_of_app. by left. }
    split.
    { intros t' idx' Ht'.
      assert (idx' ∈ held (<[t:=AtQueue]> (workers st))) as Hh.
      { eapply elem_of_held; [exact Ht'|]. by left. }
      apply list_lookup_insert_Some in Ht' as [(_ & [=] & _)|(_ & Ht')].
      rewrite list_lookup_insert_ne; [eauto|].
      intros ->. apply Hidx, elem_of_app. by right. }
    split.
    { intros t' idx' r Ht'. apply list_lookup_insert_Some in Ht'
        as [(_ & [=] & _)|(_ & Ht')]. eauto. }
    intros i Hi Hni. destruct (decide (i = idx)) as [->|Hne].
    + apply list_lookup_insert_eq. lia.
    + rewrite list_lookup_insert_ne by done. apply Hfin; [done|].
      rewrite Hp. intros [?|?]%elem_of_cons; done.
Qed.

End StatisticalPoolFacts.

(** ** The statistics in exact arithmetic *)

Section ExactFacts.
Local Open Scope R_scope.




Lemma moments_snoc {F} `{DoubleOps F} (xs : list F) (x : F) :
  moments (xs ++ [x]) = moments_step (moments xs) x.
Proof. unfold moments. by rewrite foldl_snoc. Qed.

Lemma moments_n {F} `{DoubleOps F} (xs : list F) :
  mo_n (moments xs) = length xs.
Proof.
  induction xs as [|x xs IH] using rev_ind; [done|].
  rewrite moments_snoc, length_app. simpl. rewrite IH. lia.
Qed.





(** Every update of the code is an update of Welford's rule. *)
Lemma moments_step_welford_R (s : Moments R) (x : R) :
  moments_step s x = welford_step s x.
Proof.
  unfold moments_step, welford_step.
  cbn [fadd fsub fmul fdiv of_count exact_double]. f_equal.
  rewrite S_INR. pose proof (pos_INR (mo_n s)). field. lra.
Qed.

Lemma moments_welford_R (xs : list R) : moments xs = welford_moments xs.
Proof.
  unfold moments, welford_moments. generalize (@moments_init R _).
  induction xs as [|x xs IH]; intros s; [done|].
  simpl. by rewrite moments_step_welford_R, IH.
Qed.




End ExactFacts.

(** ** Exact arithmetic in which a division by zero has no value *)

Section CheckedFacts.
Local Open Scope R_scope.















End CheckedFacts.

(** ** The comparison *)

Section ComparisonFacts.

#[export] Instance exact_double_laws : DoubleLaws R.
Proof.
  split. intros x. simpl. destruct (Rlt_dec x x) as [Hlt|]; [|done].
  exfalso. lra.
Qed.

Lemma SFltb_irrefl (x : spec_float) : SFltb x x = false.
Proof.
  unfold SFltb, SFcompare.
  destruct x as [s|s| |s m e]; try reflexivity;
    try (destruct s; reflexivity).
  rewrite Z.compare_refl. fold (Pos.compare m m). rewrite Pos.compare_refl.
  destruct s; reflexivity.
Qed.

#[export] Instance ieee_double_laws : DoubleLaws float.
Proof. split. intros x. simpl. rewrite ltb_spec. apply SFltb_irrefl. Qed.

(** Nothing is below a NaN. *)
Lemma fltb_nan (x y : float) : Prim2SF y = S754_nan -> fltb x y = false.
Proof.
  intros Hy. simpl. rewrite ltb_spec, Hy. unfold SFltb, SFcompare.
  by destruct (Prim2SF x).
Qed.

End ComparisonFacts.

(** ** The classification pass *)

Section ClassifyFacts.
Context {F : Type} `{DoubleOps F}.

Lemma classify_foldl (distances : list F) (thr : F) (l : list PointId)
  (acc : Indices) :
  foldl (classify_step distances thr) acc l =
  {| inliers := inliers acc ++ List.filter (below distances thr) l;
     outliers :=
       outliers acc ++
       List.filter (fun i => negb (below distances thr i)) l |}.
Proof.
  revert acc. induction l as [|i l IH]; intros acc; simpl.
  { rewrite !app_nil_r. by destruct acc. }
  rewrite IH. unfold classify_step, below, push_back.
  destruct (nth i distances fzero <? thr)%D; simpl;
    by rewrite <- ?app_assoc.
Qed.

Lemma classify_inliers (np : nat) (distances : list F) (thr : F) :
  inliers (classify np distances thr) =
  List.filter (below distances thr) (seq 0 np).
Proof. unfold classify. by rewrite classify_foldl. Qed.

Lemma classify_outliers (np : nat) (distances : list F) (thr : F) :
  outliers (classify np distances thr) =
  List.filter (fun i => negb (below distances thr i)) (seq 0 np).
Proof. unfold classify. by rewrite classify_foldl. Qed.

Lemma filter_split_Permutation {A} (f : A -> bool) (l : list A) :
  List.filter f l ++ List.filter (fun x => negb (f x)) l ≡ₚ l.
Proof.
  induction l as [|x l IH]; [done|]. simpl.
  destruct (f x); simpl.
  - by rewrite IH.
  - by rewrite <- Permutation_middle, IH.
Qed.

Lemma count_occ_seq (np : nat) (i : PointId) :
  count_occ Nat.eq_dec (seq 0 np) i = if i <? np then 1 else 0.
Proof.
  destruct (Nat.ltb_spec i np) as [Hi|Hi].
  - apply NoDup_count_occ'; [apply seq_NoDup|]. apply in_seq. lia.
  - apply count_occ_not_In. rewrite in_seq. lia.
Qed.

(** The two lists are an index partition when, put end to end, they are a
    rearrangement of [0 .. np-1]. *)
Lemma Index_Partition_Permutation (np : nat) (ind : Indices) :
  inliers ind ++ outliers ind ≡ₚ seq 0 np -> Index_Partition np ind.
Proof.
  intros Hp i. rewrite <- count_occ_app, <- count_occ_seq.
  revert i. by apply (Permutation_count_occ Nat.eq_dec).
Qed.

Lemma Index_Partition_elem (np : nat) (ind : Indices) (i : PointId) :
  Index_Partition np ind ->
  (i < np -> (In i (inliers ind) /\ ~ In i (outliers ind)) \/
             (~ In i (inliers ind) /\ In i (outliers ind))) /\
  (np <= i -> ~ In i (inliers ind) /\ ~ In i (outliers ind)).
Proof.
  intros Hp. specialize (Hp i).
  pose proof (count_occ_In Nat.eq_dec (inliers ind) i) as Hin.
  pose proof (count_occ_In Nat.eq_dec (outliers ind) i) as Hout.
  destruct (Nat.ltb_spec i np); split; try lia; intros _.
  - destruct (count_occ Nat.eq_dec (inliers ind) i) as [|[|n]] eqn:Ei;
      [right|left|lia]; rewrite Hin, Hout; lia.
  - rewrite Hin, Hout. lia.
Qed.

Lemma classify_partition (np : nat) (distances : list F) (thr : F) :
  Index_Partition np (classify np distances thr).
Proof.
  apply Index_Partition_Permutation.
  rewrite classify_inliers, classify_outliers.
  apply filter_split_Permutation.
Qed.

Lemma StronglySorted_seq (a n : nat) : StronglySorted lt (seq a n).
Proof.
  revert a. induction n as [|n IH]; intros a; simpl; constructor; [done|].
  apply List.Forall_forall. intros x Hx%in_seq. lia.
Qed.

Lemma StronglySorted_filter {A} (R : A -> A -> Prop) (f : A -> bool)
  (l : list A) :
  StronglySorted R l -> StronglySorted R (List.filter f l).
Proof.
  induction 1 as [|x l Hl IH Hx]; simpl; [constructor|].
  destruct (f x); [|done]. constructor; [done|].
  rewrite List.Forall_forall in *. intros y [Hy _]%filter_In. auto.
Qed.

End ClassifyFacts.

(** ** The two classifiers *)

Section FilterFacts.
Context {F : Type} `{DoubleOps F}.
Variable build : PointView F -> KD3Index F.

Lemma ready_threads (hw : nat) (cfg : Config F) :
  1 <= m_threads (ready hw cfg).1.
Proof.
  unfold ready. destruct (Nat.ltb_spec (m_threads cfg) 1); simpl; lia.
Qed.

Lemma ready_fields (hw : nat) (cfg : Config F) :
  m_method (ready hw cfg).1 = m_method cfg /\
  m_minK (ready hw cfg).1 = m_minK cfg /\
  m_radius (ready hw cfg).1 = m_radius cfg /\
  m_meanK (ready hw cfg).1 = m_meanK cfg /\
  m_multiplier (ready hw cfg).1 = m_multiplier cfg /\
  m_class (ready hw cfg).1 = m_class cfg.
Proof. unfold ready. by destruct (m_threads cfg <? 1). Qed.

(** The pool of [processRadius] ends, with every task returned, in a state
    of [radius_inv], whatever the schedule. *)
Lemma radius_pool_final (cfg : Config F) (inView : PointView F)
  (sched : list nat) :
  radius_inv cfg (build inView) (length inView)
    (radius_pool build cfg inView sched) /\
  joined (radius_pool build cfg inView sched).
Proof.
  unfold radius_pool, go_join. split.
  - eapply (pool_invariant _ _ (radius_inv cfg (build inView) (length inView))).
    + intros t s s' Hs Hstep. by eapply radius_inv_step.
    + apply radius_inv_init.
    + apply pool_run_rtc.
  - by apply pool_run_joined.
Qed.

Lemma processRadius_Permutation (cfg : Config F) (inView : PointView F)
  (sched : list nat) :
  1 <= m_threads cfg ->
  inliers (processRadius build cfg inView sched) ++
  outliers (processRadius build cfg inView sched) ≡ₚ seq 0 (length inView).
Proof.
  intros Hthreads.
  destruct (radius_pool_final cfg inView sched)
    as [(Hpool & Hperm & _) Hjoined].
  by rewrite (pool_inv_joined _ _ Hthreads Hpool Hjoined) in Hperm.
Qed.

Lemma processRadius_sides (cfg : Config F) (inView : PointView F)
  (sched : list nat) (i : PointId) :
  (i ∈ inliers (processRadius build cfg inView sched) ->
   enough_neighbors cfg (kd_radius (build inView) i (m_radius cfg)) = true) /\
  (i ∈ outliers (processRadius build cfg inView sched) ->
   enough_neighbors cfg (kd_radius (build inView) i (m_radius cfg)) = false).
Proof.
  destruct (radius_pool_final cfg inView sched)
    as [(_ & _ & _ & Hin & Hout) _]. split; [apply Hin|apply Hout].
Qed.

(** The pool of [processStatistical] ends, with every task returned, in a
    state of [statistical_inv], whatever the schedule. *)
Lemma statistical_pool_final (cfg : Config F) (inView : PointView F)
  (sched : list nat) :
  statistical_inv cfg (build inView) (length inView)
    (statistical_pool build cfg inView sched) /\
  joined (statistical_pool build cfg inView sched).
Proof.
  unfold statistical_pool, go_join. split.
  - eapply (pool_invariant _ _
              (statistical_inv cfg (build inView) (length inView))).
    + intros t s s' Hs Hstep. by eapply statistical_inv_step.
    + apply statistical_inv_init.
    + apply pool_run_rtc.
  - by apply pool_run_joined.
Qed.

(** Every execution of the pool of [processRadius] that ends joined, not
    only the runs under a schedule, ends with each index of the view in one
    of the two lists, once. *)
Lemma radius_every_execution (cfg : Config F) (inView : PointView F)
  (st : Pool Indices PointIdList) :
  1 <= m_threads cfg ->
  rtc (pool_step (radius_query cfg (build inView)) (radius_merge cfg))
      (pool_init (m_threads cfg) (length inView)
                 {| inliers := []; outliers := [] |}) st ->
  joined st ->
  inliers (shared st) ++ outliers (shared st) ≡ₚ seq 0 (length inView).
Proof.
  intros Hthreads Hrtc Hjoined.
  assert (Hinv : radius_inv cfg (build inView) (length inView) st).
  { eapply pool_invariant; [|apply radius_inv_init|exact Hrtc].
    intros t s s' Hs Hstep. by eapply radius_inv_step. }
  destruct Hinv as (Hpool & Hperm & _).
  by rewrite (pool_inv_joined _ _ Hthreads Hpool Hjoined) in Hperm.
Qed.

(** Every execution of the pool of [processStatistical] that ends joined
    leaves the same vector: the local mean of every point, in its slot. *)
Lemma statistical_every_execution (cfg : Config F) (inView : PointView F)
  (st : Pool (list F) F) :
  1 <= m_threads cfg ->
  rtc (pool_step (statistical_query cfg (build inView)) statistical_merge)
      (pool_init (m_threads cfg) (length inView)
                 (replicate (length inView) fzero)) st ->
  joined st ->
  shared st =
  expected_local_mean cfg (build inView) <$> seq 0 (length inView).
Proof.
  intros Hthreads Hrtc Hjoined.
  assert (Hinv : statistical_inv cfg (build inView) (length inView) st).
  { eapply pool_invariant; [|apply statistical_inv_init|exact Hrtc].
    intros t s s' Hs Hstep. by eapply statistical_inv_step. }
  destruct Hinv as (Hpool & Hlen & _ & _ & _ & _ & _ & Hfin).
  pose proof (pool_inv_joined _ _ Hthreads Hpool Hjoined) as Hpending.
  apply list_eq. intros i. rewrite list_lookup_fmap.
  destruct (decide (i < length inView)) as [Hi|Hi].
  - rewrite lookup_seq_lt by done. simpl. apply Hfin; [done|].
    rewrite Hpending. apply not_elem_of_nil.
  - rewrite lookup_seq_ge by lia. simpl. apply lookup_ge_None. lia.
Qed.

(** The vector of local means does not depend on the schedule, nor on the
    number of threads. *)
Lemma local_means_schedule_free (cfg : Config F) (inView : PointView F)
  (sched : list nat) :
  1 <= m_threads cfg ->
  local_means build cfg inView sched =
  expected_local_mean cfg (build inView) <$> seq 0 (length inView).
Proof.
  intros Hthreads. apply statistical_every_execution; [done| |].
  - apply pool_run_rtc.
  - by apply pool_run_joined.
Qed.

Lemma local_means_length (cfg : Config F) (inView : PointView F)
  (sched : list nat) :
  length (local_means build cfg inView sched) = length inView.
Proof.
  by destruct (statistical_pool_final cfg inView sched) as [(_ & Hlen & _) _].
Qed.

(** After the join, slot [p] of [distances] holds the local mean of [p]. *)
Lemma local_means_lookup (cfg : Config F) (inView : PointView F)
  (sched : list nat) (p : PointId) :
  1 <= m_threads cfg -> p < length inView ->
  local_means build cfg inView sched !! p =
  Some (expected_local_mean cfg (build inView) p).
Proof.
  intros Hthreads Hp.
  destruct (statistical_pool_final cfg inView sched)
    as [(Hpool & _ & _ & _ & _ & _ & _ & Hfin) Hjoined].
  apply Hfin; [done|].
  rewrite (pool_inv_joined _ _ Hthreads Hpool Hjoined). apply not_elem_of_nil.
Qed.

Lemma enough_neighbors_spec (cfg : Config F) (ids : PointIdList) :
  (0 <= m_minK cfg <= INT_MAX)%Z ->
  enough_neighbors cfg ids = true <-> (m_minK cfg < Z.of_nat (length ids))%Z.
Proof.
  intros HminK. unfold enough_neighbors, size_t_of_int.
  rewrite Z.mod_small, Z.ltb_lt; [done|].
  unfold INT_MAX, UINT64_MOD in *. lia.
Qed.

Lemma classifiers_index_partition_aux (hw : nat) (cfg : Config F)
  (inView : PointView F) (sched : list nat) :
  Index_Partition (length inView)
    (processRadius build (ready hw cfg).1 inView sched) /\
  Index_Partition (length inView)
    (processStatistical build (ready hw cfg).1 inView sched).
Proof.
  split.
  - apply Index_Partition_Permutation, processRadius_Permutation,
      ready_threads.
  - apply classify_partition.
Qed.

(** C1: for every view of N points, [processRadius] and [processStatistical]
    return an index partition: every index in [0 .. N-1] occurs once in
    inliers and outliers taken together, and no other index occurs.  The
    configuration is the one [ready] leaves, which has at least one thread;
    the schedules of the pools are arbitrary. *)
Theorem classifiers_index_partition (hw : nat) (cfg : Config F)
  (inView : PointView F) (sched1 sched2 : list nat) :
  Index_Partition (length inView)
    (processRadius build (ready hw cfg).1 inView sched1) /\
  Index_Partition (length inView)
    (processStatistical build (ready hw cfg).1 inView sched2).
Proof.
  split.
  - apply (classifiers_index_partition_aux hw cfg inView sched1).
  - apply (classifiers_index_partition_aux hw cfg inView sched2).
Qed.

(** C2: in the radius method a point [p] whose query returns [c] neighbours
    is an inlier if and only if [c > minK], and an outlier if and only if
    [c <= minK], so that [c = minK] makes it an outlier; for every radius,
    every [min_k >= 0] and every schedule. *)
Theorem radius_inlier_iff (hw : nat) (cfg : Config F) (inView : PointView F)
  (sched : list nat) (p : PointId) :
  (0 <= m_minK cfg <= INT_MAX)%Z ->
  p < length inView ->
  let ind := processRadius build (ready hw cfg).1 inView sched in
  let c := Z.of_nat (length (kd_radius (build inView) p (m_radius cfg))) in
  (In p (inliers ind) <-> (m_minK cfg < c)%Z) /\
  (In p (outliers ind) <-> (c <= m_minK cfg)%Z) /\
  (c = m_minK cfg -> In p (outliers ind)).
Proof.
  intros HminK Hp ind c.
  destruct (ready_fields hw cfg) as (_ & EminK & Eradius & _).
  assert (Hpart : Index_Partition (length inView) ind).
  { apply Index_Partition_Permutation, processRadius_Permutation,
      ready_threads. }
  destruct (Index_Partition_elem _ _ p Hpart) as [Hone _].
  specialize (Hone Hp).
  destruct (processRadius_sides (ready hw cfg).1 inView sched p)
    as [Hin' Hout'].
  rewrite Eradius in Hin', Hout'.
  assert (Hin := fun Hi => Hin' (proj2 (list_elem_of_In _ _) Hi)).
  assert (Hout := fun Ho => Hout' (proj2 (list_elem_of_In _ _) Ho)).
  clear Hin' Hout'.
  assert (Hen : enough_neighbors (ready hw cfg).1
                  (kd_radius (build inView) p (m_radius cfg)) = true
                <-> (m_minK cfg < c)%Z).
  { rewrite enough_neighbors_spec by (by rewrite EminK). by rewrite EminK. }
  assert (Hinl : In p (inliers ind) <-> (m_minK cfg < c)%Z).
  { split.
    - intros Hi. apply Hen, Hin, Hi.
    - intros Hc. destruct Hone as [[Hi _]|[_ Ho]]; [done|].
      apply Hen in Hc. rewrite (Hout Ho) in Hc. discriminate. }
  assert (Houtl : In p (outliers ind) <-> (c <= m_minK cfg)%Z).
  { split.
    - intros Ho. destruct (Z.lt_ge_cases (m_minK cfg) c) as [Hc|Hc]; [|lia].
      apply Hen in Hc. rewrite (Hout Ho) in Hc. discriminate.
    - intros Hc. destruct Hone as [[Hi _]|[_ Ho]]; [|done].
      apply Hinl in Hi. lia. }
  split; [done|]. split; [done|]. intros Hc. apply Houtl. lia.
Qed.

(** Outside the domain of C2: a negative [min_k] is converted to a [size_t]
    above every count, and no point has enough neighbours. *)
Lemma enough_neighbors_negative (cfg : Config F) (ids : PointIdList) :
  (- UINT64_MOD <= m_minK cfg < 0)%Z ->
  (Z.of_nat (length ids) < UINT64_MOD + m_minK cfg)%Z ->
  enough_neighbors cfg ids = false.
Proof.
  intros HminK Hlen. unfold enough_neighbors, size_t_of_int.
  apply Z.ltb_ge.
  rewrite <- (Z.mod_add _ 1) by (unfold UINT64_MOD; lia).
  rewrite Z.mod_small; unfold UINT64_MOD in *; lia.
Qed.

(** Without [ready]: a pool of no task classifies nothing. *)
Lemma processRadius_no_thread (cfg : Config F) (inView : PointView F)
  (sched : list nat) :
  m_threads cfg = 0 ->
  processRadius build cfg inView sched = {| inliers := []; outliers := [] |}.
Proof.
  intros Hthreads. unfold processRadius, radius_pool, go_join.
  rewrite Hthreads.
  by destruct (pool_work _).
Qed.

(** The indices that [run] labels are indices of the view. *)
Lemma outliers_in_range (hw : nat) (cfg : Config F) (inView : PointView F)
  (sched : list nat) (ind : Indices) (i : PointId) :
  select_indices build (ready hw cfg).1 inView sched = Some ind ->
  In i (outliers ind) -> i < length inView.
Proof.
  intros Hsel Hi.
  assert (Hpart : Index_Partition (length inView) ind).
  { unfold select_indices in Hsel.
    destruct (iequals _ "statistical"); [|destruct (iequals _ "radius")];
      simplify_eq; apply (classifiers_index_partition_aux hw cfg inView sched). }
  destruct (Index_Partition_elem _ _ i Hpart) as [_ Hge].
  destruct (Nat.lt_ge_cases i (length inView)) as [|Hle]; [done|].
  by destruct (Hge Hle).
Qed.

(** C3: in the statistical method, with
    [threshold = globalMean + multiplier * globalStdDev], a point [p], whose
    slot of [distances] holds its local mean, is an inlier if and only if
    its local mean is below the threshold and an outlier if and only if it
    is not; a local mean equal to the threshold makes it an outlier. *)
Theorem statistical_inlier_iff `{!DoubleLaws F} (hw : nat) (cfg : Config F)
  (inView : PointView F) (sched : list nat) (p : PointId) :
  p < length inView ->
  let cfg' := (ready hw cfg).1 in
  let distances := local_means build cfg' inView sched in
  let s := moments distances in
  let thr := (mo_M1 s + m_multiplier cfg * fsqrt (variance s))%D in
  let ind := processStatistical build cfg' inView sched in
  nth p distances fzero = expected_local_mean cfg' (build inView) p /\
  (In p (inliers ind) <-> (nth p distances fzero <? thr)%D = true) /\
  (In p (outliers ind) <-> (nth p distances fzero <? thr)%D = false) /\
  (nth p distances fzero = thr -> In p (outliers ind)).
Proof.
  intros Hp cfg' distances s thr ind.
  destruct (ready_fields hw cfg) as (_ & _ & _ & _ & Emult & _).
  assert (Hind : ind = classify (length inView) distances thr).
  { unfold ind, processStatistical, threshold, thr, s, distances, cfg'.
    by rewrite Emult. }
  assert (Hseq : In p (seq 0 (length inView))) by (apply in_seq; lia).
  assert (Hin : In p (inliers ind) <-> (nth p distances fzero <? thr)%D = true).
  { rewrite Hind, classify_inliers, filter_In. unfold below. tauto. }
  assert (Hout : In p (outliers ind)
                 <-> (nth p distances fzero <? thr)%D = false).
  { rewrite Hind, classify_outliers, filter_In, negb_true_iff.
    unfold below. tauto. }
  split; [|split; [done|split; [done|]]].
  - apply nth_lookup_Some, local_means_lookup; [apply ready_threads|done].
  - intros Heq. apply Hout. rewrite Heq. apply fltb_irrefl.
Qed.

(** C10: the two lists that [processStatistical] returns are in strictly
    ascending order of point index, whatever the schedule of the parallel
    phase. *)
Theorem statistical_lists_ascending (cfg : Config F) (inView : PointView F)
  (sched : list nat) :
  StronglySorted lt (inliers (processStatistical build cfg inView sched)) /\
  StronglySorted lt (outliers (processStatistical build cfg inView sched)).
Proof.
  unfold processStatistical. rewrite classify_inliers, classify_outliers.
  split; apply StronglySorted_filter, StronglySorted_seq.
Qed.

(** C8: when the method name is not recognised, or the computed partition
    has no inlier, or it has no outlier, [run] leaves every point of the
    view as it was, returns the view (the set that holds the handle of the
    input, for a view that has a point) and logs nothing above a
    warning. *)
Theorem run_pass_through (cfg : Config F) (inView : PointView F)
  (sched : list nat) :
  (iequals (m_method cfg) "statistical" = false /\
   iequals (m_method cfg) "radius" = false) \/
  (exists ind, select_indices build cfg inView sched = Some ind /\
               (inliers ind = [] \/ outliers ind = [])) ->
  let r := run build cfg inView sched in
  view_after r = inView /\
  (inView <> [] -> viewSet r = [InView]) /\
  Forall (fun e => level e = Warning) (log r).
Proof.
  intros Hcase r. unfold r, run.
  destruct inView as [|pt inView]; [by repeat split|].
  cbn [length Nat.eqb].
  destruct Hcase as [[Hs Hr]|(ind & Hsel & Hempty)].
  - unfold select_indices. rewrite Hs, Hr. simpl. repeat split.
    by repeat constructor.
  - rewrite Hsel. destruct Hempty as [Hi|Ho].
    + rewrite Hi. simpl. repeat split. by repeat constructor.
    + rewrite Ho. destruct (empty (inliers ind)); simpl; repeat split;
        by repeat constructor.
Qed.

(** C9: for the empty view [run] returns the empty set of views, which does
    not hold the input view, and logs nothing, whatever the index, the
    configuration and the schedule; for every view that has a point the set
    it returns holds the input view. *)
Theorem run_empty_view (cfg : Config F) (sched : list nat) :
  run build cfg [] sched = {| viewSet := []; view_after := []; log := [] |} /\
  (forall inView sched', inView <> [] ->
     viewSet (run build cfg inView sched') = [InView]).
Proof.
  split; [done|]. intros [|pt inView] sched' Hne; [done|].
  unfold run. cbn [length Nat.eqb].
  destruct (select_indices _ _ _ _) as [ind|]; [|done].
  destruct (empty (inliers ind)); [done|].
  by destruct (negb (empty (outliers ind))).
Qed.

End FilterFacts.

(** ** A view of one point, in binary64 *)

Section SinglePoint.
Variable build : PointView float -> KD3Index float.

(** With one value the fold divides [M2], which is [0.0] or a NaN, by
    [1 - 1.0]: the variance is a NaN. *)
Lemma variance_single_nan (d : float) :
  Prim2SF (variance (moments [d])) = S754_nan.
Proof.
  unfold variance, variance_divisor, moments.
  cbn [foldl moments_step moments_init mo_n mo_M1 mo_M2
       fadd fsub fmul fdiv fone fzero of_count ieee_double].
  change (of_uint63 (Uint63.of_Z (Z.of_nat 0))) with 0%float.
  change (of_uint63 (Uint63.of_Z (Z.of_nat 1)) - 1)%float with 0%float.
  rewrite div_spec, add_spec, mul_spec.
  change (Prim2SF 0) with (S754_zero false).
  destruct (Prim2SF (_ * _)) as [[|]|[|]| |[|] m e]; reflexivity.
Qed.

Lemma threshold_single_nan (cfg : Config float) (d : float) :
  Prim2SF (threshold cfg [d]) = S754_nan.
Proof.
  unfold threshold. cbn [fadd fmul fsqrt ieee_double].
  rewrite add_spec, mul_spec, sqrt_spec, variance_single_nan.
  destruct (Prim2SF (m_multiplier cfg)), (Prim2SF (mo_M1 (moments [d])));
    reflexivity.
Qed.

(** The one point of a view of one point is an outlier, whatever its local
    mean and the multiplier. *)
Lemma processStatistical_single (cfg : Config float) (pt : Point float)
  (sched : list nat) :
  processStatistical build cfg [pt] sched = {| inliers := []; outliers := [0] |}.
Proof.
  unfold processStatistical.
  pose proof (local_means_length build cfg [pt] sched) as Hlen.
  destruct (local_means build cfg [pt] sched) as [|d [|? ?]]; try done.
  unfold classify. cbn [length seq foldl]. unfold classify_step.
  cbn [nth]. by rewrite (fltb_nan d _ (threshold_single_nan cfg d)).
Qed.

Lemma run_statistical_single (cfg : Config float) (pt : Point float)
  (sched : list nat) :
  iequals (m_method cfg) "statistical" = true ->
  run build cfg [pt] sched =
  {| viewSet := [InView]; view_after := [pt]; log := [WouldRemoveAllPoints] |}.
Proof.
  intros Hm. unfold run, select_indices. cbn [length Nat.eqb].
  by rewrite Hm, processStatistical_single.
Qed.

End SinglePoint.

(** ** The global fold and the two-pass computation *)

Section StatisticsClaims.
Local Open Scope R_scope.






(** In binary64 the fold and the two-pass computation round differently
    also on small values: for 0, 0, 1 the two variances differ in the last
    place; for three copies of the double nearest to 0.1 the fold has
    variance 0 and the two-pass computation has not; for 1, 1, 1e16 the
    means differ. *)
Lemma global_fold_rounding :
  variance (moments [0; 0; 1]%float) <> naive_variance [0; 0; 1]%float /\
  (variance (moments (replicate 3 0x1.999999999999ap-4%float)) = 0%float /\
   naive_variance (replicate 3 0x1.999999999999ap-4%float) <> 0%float) /\
  mo_M1 (moments [1; 1; 1e16]%float) <> naive_mean [1; 1; 1e16]%float.
Proof.
  vm_compute. repeat split; try (intros Heq; discriminate Heq).
Qed.

(** C5, amended: in exact arithmetic the fold of the code,
    [M2 += delta * (delta / n) * (n - 1)], is the fold of the rule
    [n += 1], [delta = x - M1], [M1 += delta / n],
    [M2 += delta * (x - M1)] with the updated mean and without the factor
    [(n - 1)]; afterwards [variance = M2 / (n - 1)]. *)
Theorem global_fold_update_rule (xs : list R) :
  moments xs = welford_moments xs /\
  variance (moments xs) = mo_M2 (welford_moments xs) / (INR (length xs) - 1).
Proof.
  split; [apply moments_welford_R|].
  unfold variance, variance_divisor.
  by rewrite moments_n, <- moments_welford_R.
Qed.

(** C5 as it is stated fails: on 0, 2, 4 the rule of the specification ends
    with [M2 = 14], hence a variance of 7, where the code ends with
    [M2 = 8] and the sample variance 4; in binary64 and in exact
    arithmetic. *)
Lemma spec_update_rule_differs :
  (moments [0; 2; 4]%float <> spec_moments [0; 2; 4]%float /\
   variance (moments [0; 2; 4]%float) = 4%float /\
   variance (spec_moments [0; 2; 4]%float) = 7%float) /\
  (mo_M2 (moments [0; 2; 4]) = 8 /\ mo_M2 (spec_moments [0; 2; 4]) = 14).
Proof.
  split.
  - vm_compute. repeat split. intros Heq. discriminate Heq.
  - unfold moments, spec_moments, moments_step, spec_moments_step. simpl.
    split; field.
Qed.

End StatisticsClaims.

(** ** The local mean *)

Section LocalMeanClaims.
Local Open Scope R_scope.





(** In binary64 the update and the arithmetic mean round differently also
    on small values: for six neighbours at the distances 1, 1, 1, 2, 2, 3
    the incremental update ends one place below the sum of the distances
    divided by 6. *)
Lemma local_mean_rounding :
  neighbor_distances 6 [0; 1; 1; 1; 4; 4; 9]%float
  = [1; 1; 1; 2; 2; 3]%float /\
  local_mean 7 [0; 1; 1; 1; 4; 4; 9]%float 0%float
  <> naive_mean (neighbor_distances 6 [0; 1; 1; 1; 4; 4; 9]%float).
Proof.
  vm_compute. repeat split. intros Heq. discriminate Heq.
Qed.

End LocalMeanClaims.

(** ** The sample run *)

Section SampleRun.

Lemma radius_inlier_iff_witness :
  let ind := processRadius sample_index (ready 4 (sample_cfg "radius")).1
               sample_view [1; 0; 1] in
  (In 3 (inliers ind) <-> (2 < 1)%Z) /\ (In 3 (outliers ind) <-> (1 <= 2)%Z)
  /\ (1%Z = 2%Z -> In 3 (outliers ind)).
Proof.
  apply (radius_inlier_iff sample_index 4 (sample_cfg "radius") sample_view
           [1; 0; 1] 3).
  - unfold INT_MAX. simpl. lia.
  - simpl. lia.
Defined.

Lemma statistical_inlier_iff_witness :
  let cfg' := (ready 4 (sample_cfg "statistical")).1 in
  let distances := local_means sample_index cfg' sample_view [1; 0; 1] in
  let s := moments distances in
  let thr := (mo_M1 s + 1%float * fsqrt (variance s))%D in
  let ind := processStatistical sample_index cfg' sample_view [1; 0; 1] in
  nth 3 distances fzero = expected_local_mean cfg' (sample_index sample_view) 3
  /\ (In 3 (inliers ind) <-> (nth 3 distances fzero <? thr)%D = true)
  /\ (In 3 (outliers ind) <-> (nth 3 distances fzero <? thr)%D = false)
  /\ (nth 3 distances fzero = thr -> In 3 (outliers ind)).
Proof.
  apply (statistical_inlier_iff sample_index 4 (sample_cfg "statistical")
           sample_view [1; 0; 1] 3).
  simpl. lia.
Defined.

Lemma run_pass_through_witness :
  let r := run sample_index (sample_cfg "median") sample_view [] in
  view_after r = sample_view /\
  (sample_view <> [] -> viewSet r = [InView]) /\
  Forall (fun e => level e = Warning) (log r).
Proof.
  apply (run_pass_through sample_index (sample_cfg "median") sample_view []).
  left. split; reflexivity.
Defined.

Lemma run_empty_view_witness :
  run sample_index (sample_cfg "radius") [] [] =
    {| viewSet := []; view_after := []; log := [] |} /\
  viewSet (run sample_index (sample_cfg "radius") sample_view []) = [InView].
Proof.
  destruct (run_empty_view sample_index (sample_cfg "radius") [])
    as [Hempty Hother].
  split; [exact Hempty|]. apply Hother. discriminate.
Defined.

(** The order of the lists of [processRadius] is the order in which the
    tasks reach the result lock. *)
Example processRadius_schedules :
  processRadius sample_index (sample_cfg "radius") sample_view [] =
    {| inliers := [0; 1; 2]; outliers := [3] |} /\
  processRadius sample_index (sample_cfg "radius") sample_view [0; 1; 1; 1] =
    {| inliers := [1; 0; 2]; outliers := [3] |}.
Proof. split; reflexivity. Qed.

(** The far point of the sample is the one outlier of both methods and gets
    the noise class. *)
Example run_sample :
  pt_class <$> view_after (run sample_index (sample_cfg "Statistical")
                             sample_view [1; 0; 1]) = [1; 1; 1; 7]%Z /\
  pt_class <$> view_after (run sample_index (sample_cfg "RADIUS")
                             sample_view [0; 1; 1; 1]) = [1; 1; 1; 7]%Z.
Proof. split; reflexivity. Qed.

(** C7: the view of one point.  [run] does not return early; the fold ends
    with [n = 1] and the code divides by [n - 1.0 = 0.0]: the variance and
    the threshold are NaN, no comparison holds, the point is an outlier,
    and [run] reports that the filter would remove every point. *)
Theorem statistical_single_point_nan :
  let inView := [sample_point 0] in
  let cfg := sample_cfg "statistical" in
  let distances := local_means sample_index cfg inView [] in
  mo_n (moments distances) = 1 /\
  variance_divisor (moments distances) = 0%float /\
  is_nan (variance (moments distances)) = true /\
  is_nan (threshold cfg distances) = true /\
  processStatistical sample_index cfg inView [] =
    {| inliers := []; outliers := [0] |} /\
  run sample_index cfg inView [] =
    {| viewSet := [InView]; view_after := inView;
       log := [WouldRemoveAllPoints] |}.
Proof. vm_compute. repeat split. Qed.

End SampleRun.

(** * Further properties *)

(** ** [ready] *)

Section ReadyFacts.
Context {F : Type} `{DoubleOps F}.

Lemma ready_fst (hw : nat) (cfg : Config F) :
  (ready hw cfg).1 = with_threads cfg (Nat.max 1 (m_threads cfg)).
Proof.
  unfold ready, with_threads.
  destruct (Nat.ltb_spec (m_threads cfg) 1); cbn [fst]; f_equal; lia.
Qed.

Lemma ready_snd (hw : nat) (cfg : Config F) :
  (ready hw cfg).2 =
  (if m_threads cfg <? 1 then [ThreadsBelowOne (m_threads cfg)] else []) ++
  (if hw <? Nat.max 1 (m_threads cfg)
   then [ThreadsAboveProcessors (Nat.max 1 (m_threads cfg)) hw] else []).
Proof.
  unfold ready.
  destruct (Nat.ltb_spec (m_threads cfg) 1); cbn [snd].
  - by replace (Nat.max 1 (m_threads cfg)) with 1 by lia.
  - by replace (Nat.max 1 (m_threads cfg)) with (m_threads cfg) by lia.
Qed.

(** X1: [ready] leaves a thread count of at least one, the larger of 1 and
    the given one, changes nothing else, and a second [ready] changes
    nothing and does not warn about the thread count again. *)
Theorem ready_clamps (hw : nat) (cfg : Config F) :
  (ready hw cfg).1 = with_threads cfg (Nat.max 1 (m_threads cfg)) /\
  (ready hw (ready hw cfg).1).1 = (ready hw cfg).1 /\
  (forall n, ~ In (ThreadsBelowOne n) (ready hw (ready hw cfg).1).2).
Proof.
  split; [apply ready_fst|]. split.
  - rewrite !ready_fst. unfold with_threads. cbn [m_threads]. f_equal. lia.
  - intros n. rewrite ready_snd, ready_fst. cbn [with_threads m_threads].
    destruct (Nat.ltb_spec (Nat.max 1 (m_threads cfg)) 1); [lia|].
    destruct (hw <? _); simpl; [intros [Hn|[]]; discriminate|intros []].
Qed.

(** X2: [ready] warns that the thread count is below one exactly when it is
    zero, and that it exceeds the processors exactly when the count it
    leaves exceeds [hardware_concurrency()]; a machine that reports 0
    processors always gets the second warning. *)
Theorem ready_warnings (hw : nat) (cfg : Config F) :
  (In (ThreadsBelowOne (m_threads cfg)) (ready hw cfg).2
   <-> m_threads cfg = 0) /\
  (In (ThreadsAboveProcessors (m_threads (ready hw cfg).1) hw) (ready hw cfg).2
   <-> hw < m_threads (ready hw cfg).1) /\
  (hw = 0 -> exists n, In (ThreadsAboveProcessors n 0) (ready hw cfg).2).
Proof.
  rewrite ready_snd, ready_fst. cbn [with_threads m_threads].
  set (n := Nat.max 1 (m_threads cfg)).
  assert (1 <= n) by (unfold n; lia).
  split; [|split].
  - rewrite in_app_iff.
    destruct (Nat.ltb_spec (m_threads cfg) 1) as [Ht|Ht].
    + split; [lia|]. intros _. left. by left.
    + split; [|lia]. intros [[]|Hin].
      destruct (hw <? n); [|done]. destruct Hin as [Hin|[]]. discriminate.
  - rewrite in_app_iff.
    destruct (Nat.ltb_spec hw n) as [Hhw|Hhw].
    + split; [done|]. intros _. right. by left.
    + split; [|lia]. intros [Hin|[]].
      destruct (m_threads cfg <? 1); [|done].
      destruct Hin as [Hin|[]]. discriminate.
  - intros ->. exists n. rewrite in_app_iff. right.
    destruct (Nat.ltb_spec 0 n); [by left|lia].
Qed.

End ReadyFacts.

Lemma ready_warnings_witness :
  exists n, In (ThreadsAboveProcessors n 0) (ready 0 (sample_cfg "radius")).2.
Proof.
  apply (ready_warnings 0 (sample_cfg "radius")). reflexivity.
Defined.

(** ** The worker pool, at every moment *)

Section PoolFurther.
Context {Sh Res : Type}.
Variable compute : PointId -> Sh -> Res.
Variable merge : PointId -> Res -> Sh -> Sh.

Local Abbreviation pstep := (pool_step compute merge).

Lemma pool_work_init (threads np : nat) (s0 : Sh) :
  pool_work (pool_init (Res:=Res) threads np s0) = 3 * np + threads.
Proof.
  unfold pool_work, pool_init, iota. cbn [point_indices workers].
  rewrite length_seq. f_equal.
  induction threads as [|n IH]; [done|]. simpl in *. by f_equal.
Qed.

Lemma pool_work_joined (st : Pool Sh Res) :
  joined st -> point_indices st = [] -> pool_work st = 0.
Proof.
  unfold joined, pool_work. intros Hj ->. simpl.
  induction Hj as [|w ws -> _ IH]; [done|]. by simpl.
Qed.

(** X3: the pool always comes to its end.  No execution from the state
    [go()] starts in has more than [3 * np + threads] moves; a task that has
    not returned can always move, so that the pool cannot block; and with at
    least one task every execution that ends joined has exactly that many
    moves, three for each index and one for each task. *)
Theorem pool_always_ends (threads np : nat) (s0 : Sh) :
  (forall n st, nsteps pstep n (pool_init threads np s0) st ->
     n <= 3 * np + threads) /\
  (forall st : Pool Sh Res, ~ joined st -> exists st', pstep st st') /\
  (forall n st, 1 <= threads ->
     nsteps pstep n (pool_init threads np s0) st -> joined st ->
     n = 3 * np + threads).
Proof.
  split; [|split].
  - intros n st Hn. apply nsteps_pool_work in Hn.
    rewrite pool_work_init in Hn. lia.
  - intros st Hnj. destruct (runnable st) as [|t ts] eqn:Hr.
    { by apply runnable_nil_joined in Hr. }
    assert (Hin : In t (runnable st)) by (rewrite Hr; by left).
    destruct (runnable_step compute merge _ _ Hin) as [st' Hst'].
    exists st', t. exact Hst'.
  - intros n st Hthreads Hn Hj.
    assert (Hinv : pool_inv threads st).
    { eapply (pool_invariant compute merge); [|apply pool_inv_init|].
      - intros t s s' Hs Hstep. by eapply pool_inv_step.
      - by eapply rtc_nsteps_2. }
    pose proof (pool_inv_joined _ _ Hthreads Hinv Hj) as Hpending.
    apply app_eq_nil in Hpending as [Hq _].
    apply nsteps_pool_work in Hn.
    rewrite pool_work_init, (pool_work_joined _ Hj Hq) in Hn. lia.
Qed.

End PoolFurther.

Lemma pool_always_ends_witness : 4 = 3 * 1 + 1.
Proof.
  eapply (proj2 (proj2 (pool_always_ends (fun (_ : PointId) (s : nat) => s)
                          (fun _ r (_ : nat) => S r) 1 1 0)) 4).
  - lia.
  - do 4 (eapply nsteps_l; [exists 0; reflexivity|]). apply nsteps_O.
  - repeat constructor.
Defined.

(** ** The classifiers, whatever the schedule *)

Section ScheduleFacts.
Context {F : Type} `{DoubleOps F}.
Variable build : PointView F -> KD3Index F.

Lemma with_threads_same (cfg : Config F) : with_threads cfg (m_threads cfg) = cfg.
Proof. by destruct cfg. Qed.

(** X4: at every moment of every execution of the pool of [processRadius],
    with any number of tasks, every index of the view is in exactly one
    place: still queued, held by one task, or in one of the two lists.  No
    point is lost, given to two tasks or classified twice. *)
Theorem radius_every_moment (cfg : Config F) (inView : PointView F)
  (st : Pool Indices PointIdList) :
  rtc (pool_step (radius_query cfg (build inView)) (radius_merge cfg))
      (pool_init (m_threads cfg) (length inView)
                 {| inliers := []; outliers := [] |}) st ->
  point_indices st ++ held (workers st) ++
  inliers (shared st) ++ outliers (shared st) ≡ₚ seq 0 (length inView).
Proof.
  intros Hrtc.
  assert (Hinv : radius_inv cfg (build inView) (length inView) st).
  { eapply pool_invariant; [|apply radius_inv_init|exact Hrtc].
    intros t s s' Hs Hstep. by eapply radius_inv_step. }
  destruct Hinv as (_ & Hperm & _). unfold pending in Hperm.
  by rewrite <- app_assoc in Hperm.
Qed.

(** The lists of [processRadius] hold what the test keeps and what it does
    not, in some order. *)
Lemma processRadius_filter (cfg : Config F) (inView : PointView F)
  (sched : list nat) :
  1 <= m_threads cfg ->
  inliers (processRadius build cfg inView sched) ≡ₚ
    List.filter (radius_keeps cfg (build inView)) (seq 0 (length inView)) /\
  outliers (processRadius build cfg inView sched) ≡ₚ
    List.filter (fun p => negb (radius_keeps cfg (build inView) p))
                (seq 0 (length inView)).
Proof.
  intros Hthreads.
  pose proof (processRadius_Permutation build cfg inView sched Hthreads)
    as Hperm.
  assert (Hnd : NoDup (inliers (processRadius build cfg inView sched) ++
                       outliers (processRadius build cfg inView sched))).
  { rewrite Hperm. apply NoDup_seq. }
  apply NoDup_app in Hnd as (Hnd1 & Hdisj & Hnd2).
  assert (Hsides := processRadius_sides build cfg inView sched).
  assert (Hseq : forall i, In i (seq 0 (length inView)) <->
            i ∈ inliers (processRadius build cfg inView sched) \/
            i ∈ outliers (processRadius build cfg inView sched)).
  { intros i. by rewrite <- list_elem_of_In, <- Hperm, elem_of_app. }
  unfold radius_keeps.
  split; (apply NoDup_Permutation;
          [done|apply NoDup_ListNoDup, List.NoDup_filter, seq_NoDup|]);
    intros i; split.
  - intros Hi. apply list_elem_of_In, filter_In. split.
    + apply Hseq. by left.
    + by apply Hsides.
  - intros [Hs Hk]%list_elem_of_In%filter_In.
    apply Hseq in Hs as [Hi|Ho]; [done|].
    apply Hsides in Ho. congruence.
  - intros Ho. apply list_elem_of_In, filter_In. split.
    + apply Hseq. by right.
    + apply negb_true_iff. by apply Hsides.
  - intros [Hs Hk%negb_true_iff]%list_elem_of_In%filter_In.
    apply Hseq in Hs as [Hi|Ho]; [|done].
    apply Hsides in Hi. congruence.
Qed.

End ScheduleFacts.

Lemma radius_every_moment_witness :
  let st := radius_pool sample_index (sample_cfg "radius") sample_view [] in
  point_indices st ++ held (workers st) ++
  inliers (shared st) ++ outliers (shared st) ≡ₚ seq 0 (length sample_view).
Proof.
  apply (radius_every_moment sample_index (sample_cfg "radius") sample_view).
  apply pool_run_rtc.
Defined.

(** ** [run]: the labels *)

Section LabelFacts.
Context {F : Type}.

Lemma setField_lookup (v : PointView F) (i : PointId) (c : Z) (j : nat) :
  setField_Classification v i c !! j =
  if decide (i = j) then relabel c <$> v !! j else v !! j.
Proof.
  unfold setField_Classification, PointView, PointId in *.
  destruct (v !! i) as [p|] eqn:Hi; case_decide as Hij; subst.
  - rewrite list_lookup_insert_eq by (by eapply lookup_lt_Some).
    by rewrite Hi.
  - by rewrite list_lookup_insert_ne by done.
  - by rewrite Hi.
  - done.
Qed.

Lemma label_outliers_lookup (cfg : Config F) (v : PointView F)
  (ids : PointIdList) (j : nat) :
  label_outliers cfg v ids !! j =
  if decide (j ∈ ids) then relabel (m_class cfg) <$> v !! j else v !! j.
Proof.
  unfold label_outliers. revert v.
  induction ids as [|i ids IH]; intros v; cbn [foldl].
  { case_decide as Hj; [|done]. by apply elem_of_nil in Hj. }
  rewrite IH, setField_lookup.
  repeat case_decide; try done; try (by destruct (v !! j)); exfalso;
    match goal with
    | Hn : ~ (_ ∈ _ :: _) |- _ =>
        apply Hn, elem_of_cons; first [by left|by right]
    | Hc : _ ∈ _ :: _ |- _ =>
        apply elem_of_cons in Hc as [?|?]; [congruence|done]
    end.
Qed.

(** X6: the labelling depends only on which indices are listed, not on
    their order nor on repetitions, and applying it to its own result
    changes nothing. *)
Theorem label_outliers_set (cfg : Config F) (v : PointView F)
  (ids ids' : PointIdList) :
  (forall i, In i ids <-> In i ids') ->
  label_outliers cfg v ids = label_outliers cfg v ids' /\
  label_outliers cfg (label_outliers cfg v ids) ids' = label_outliers cfg v ids.
Proof.
  intros Hsame.
  assert (Hlook : forall (w : PointView F) j,
            label_outliers cfg w ids' !! j = label_outliers cfg w ids !! j).
  { intros w j. rewrite !label_outliers_lookup.
    repeat case_decide; try done; exfalso;
      match goal with
      | Hn : ~ _ |- _ => apply Hn; apply list_elem_of_In, Hsame,
                         list_elem_of_In; assumption
      end. }
  split; apply list_eq; intros j.
  - by rewrite Hlook.
  - rewrite Hlook, !label_outliers_lookup.
    case_decide; [|done]. by destruct (v !! j).
Qed.

Lemma label_outliers_length (cfg : Config F) (v : PointView F)
  (ids : PointIdList) :
  length (label_outliers cfg v ids) = length v.
Proof.
  unfold label_outliers. revert v.
  induction ids as [|i ids IH]; intros v; [done|]. cbn [foldl].
  rewrite IH. unfold setField_Classification, PointView, PointId in *.
  destruct (v !! i); [apply length_insert|done].
Qed.

End LabelFacts.

Section RunFacts.
Context {F : Type} `{DoubleOps F}.
Variable build : PointView F -> KD3Index F.

(** X5: [run] never adds, drops or moves a point: on every path the view
    keeps its length, every point keeps its position, and the
    classification of a point is the one it had or the noise class. *)
Theorem run_keeps_points (cfg : Config F) (inView : PointView F)
  (sched : list nat) :
  Forall2 (fun p q => pt_x q = pt_x p /\ pt_y q = pt_y p /\ pt_z q = pt_z p /\
                      (pt_class q = pt_class p \/ pt_class q = m_class cfg))
          inView (view_after (run build cfg inView sched)).
Proof.
  assert (Hsame : Forall2
            (fun p q : Point F =>
               pt_x q = pt_x p /\ pt_y q = pt_y p /\ pt_z q = pt_z p /\
               (pt_class q = pt_class p \/ pt_class q = m_class cfg))
            inView inView).
  { apply Forall2_same_length_lookup. split; [done|].
    intros i p q Hp Hq. simplify_eq. auto. }
  unfold run. destruct (length inView =? 0); [done|].
  destruct (select_indices _ _ _ _) as [ind|]; [|done].
  destruct (empty (inliers ind)); [done|].
  destruct (negb (empty (outliers ind))); [|done].
  cbn [view_after]. apply Forall2_same_length_lookup_2.
  - by rewrite label_outliers_length.
  - intros i p q Hp Hq.
    pose proof (label_outliers_lookup cfg inView (outliers ind) i) as Hl.
    unfold PointView, PointId in *. rewrite Hq, Hp in Hl.
    case_decide; simplify_eq/=; auto.
Qed.

Lemma empty_Permutation {A} (l k : list A) : l ≡ₚ k -> empty l = empty k.
Proof.
  intros Hp. apply Permutation_length in Hp. by destruct l, k.
Qed.

Lemma empty_filter {A} (f : A -> bool) (l : list A) :
  empty (List.filter f l) = negb (existsb f l).
Proof.
  induction l as [|x l IH]; [done|]. simpl. by destruct (f x).
Qed.

Lemma empty_filter_negb {A} (f : A -> bool) (l : list A) :
  empty (List.filter (fun x => negb (f x)) l) = forallb f l.
Proof.
  induction l as [|x l IH]; [done|]. simpl. by destruct (f x).
Qed.

(** What [run] returns for a view that has a point, once the lists of the
    classifier are known to hold what a test keeps and what it does not. *)
Lemma run_of_test (cfg : Config F) (inView : PointView F) (sched : list nat)
  (ind : Indices) (keep : PointId -> bool) :
  inView <> [] ->
  select_indices build cfg inView sched = Some ind ->
  inliers ind ≡ₚ List.filter keep (seq 0 (length inView)) ->
  outliers ind ≡ₚ
    List.filter (fun p => negb (keep p)) (seq 0 (length inView)) ->
  run build cfg inView sched =
  {| viewSet := [InView];
     view_after := imap (labelled cfg keep (length inView)) inView;
     log := outcome_log keep (length inView) |}.
Proof.
  intros Hne Hsel Hin Hout. unfold run.
  destruct (Nat.eqb_spec (length inView) 0) as [Hlen|_].
  { by destruct inView. }
  rewrite Hsel, (empty_Permutation _ _ Hin), (empty_Permutation _ _ Hout).
  rewrite empty_filter, empty_filter_negb. unfold outcome_log, labelled.
  unfold PointView, PointId in *.
  set (np := length inView) in *.
  destruct (existsb keep (seq 0 np)) eqn:Hex; cbn [negb andb].
  - destruct (forallb keep (seq 0 np)) eqn:Hall; cbn [negb]; f_equal.
    + apply list_eq. intros j. rewrite list_lookup_imap.
      destruct (inView !! j) as [p|] eqn:Hj; [|done]. simpl.
      rewrite forallb_forall in Hall. rewrite Hall; [done|].
      apply in_seq. apply lookup_lt_Some in Hj. unfold np. lia.
    + apply list_eq. intros j.
      pose proof (label_outliers_lookup cfg inView (outliers ind) j) as Hl.
      unfold PointView, PointId in *. rewrite list_lookup_imap, Hl. clear Hl.
      destruct (inView !! j) as [p|] eqn:Hj; [|by case_decide]. simpl.
      assert (Hjn : In j (seq 0 np)).
      { apply in_seq. apply lookup_lt_Some in Hj. unfold np. lia. }
      case_decide as Ho.
      * rewrite Hout in Ho. apply list_elem_of_In, filter_In in Ho as [_ ->].
        done.
      * destruct (keep j) eqn:Hk; [done|]. exfalso. apply Ho.
        rewrite Hout. apply list_elem_of_In, filter_In. by rewrite Hk.
    + by rewrite (Permutation_length Hout).
  - f_equal. apply list_eq. intros j. rewrite list_lookup_imap.
    by destruct (inView !! j).
Qed.

Lemma length_filter_split {A} (f : A -> bool) (l : list A) :
  length (List.filter f l) + length (List.filter (fun x => negb (f x)) l)
  = length l.
Proof.
  rewrite <- length_app. apply Permutation_length, filter_split_Permutation.
Qed.

(** [processStatistical] classifies the local means of the points, whatever
    the schedule and the number of threads. *)
Lemma processStatistical_all_local_means (cfg : Config F)
  (inView : PointView F) (sched : list nat) :
  1 <= m_threads cfg ->
  processStatistical build cfg inView sched =
  classify (length inView)
    (all_local_means cfg (build inView) (length inView))
    (threshold cfg (all_local_means cfg (build inView) (length inView))).
Proof.
  intros Hthreads. unfold processStatistical, all_local_means.
  by rewrite (local_means_schedule_free build cfg inView sched Hthreads).
Qed.

Lemma run_radius_threads (cfg : Config F) (inView : PointView F)
  (sched : list nat) :
  1 <= m_threads cfg -> inView <> [] ->
  iequals (m_method cfg) "statistical" = false ->
  iequals (m_method cfg) "radius" = true ->
  run build cfg inView sched =
  {| viewSet := [InView];
     view_after :=
       imap (labelled cfg (radius_keeps cfg (build inView)) (length inView))
            inView;
     log := outcome_log (radius_keeps cfg (build inView)) (length inView) |}.
Proof.
  intros Hthreads Hne Hs Hr.
  destruct (processRadius_filter build cfg inView sched Hthreads)
    as [Hin Hout].
  eapply run_of_test; [done| |exact Hin|exact Hout].
  unfold select_indices. by rewrite Hs, Hr.
Qed.

Lemma run_statistical_threads (cfg : Config F) (inView : PointView F)
  (sched : list nat) :
  1 <= m_threads cfg -> inView <> [] ->
  iequals (m_method cfg) "statistical" = true ->
  run build cfg inView sched =
  {| viewSet := [InView];
     view_after :=
       imap (labelled cfg (statistical_keeps cfg (build inView)
                             (length inView)) (length inView))
            inView;
     log := outcome_log (statistical_keeps cfg (build inView) (length inView))
                        (length inView) |}.
Proof.
  intros Hthreads Hne Hs.
  eapply run_of_test; [done| | |].
  - unfold select_indices. by rewrite Hs.
  - rewrite (processStatistical_all_local_means _ _ _ Hthreads).
    by rewrite classify_inliers.
  - rewrite (processStatistical_all_local_means _ _ _ Hthreads).
    by rewrite classify_outliers.
Qed.

(** X7: the radius method, end to end.  For a view that has a point, [run]
    after [ready] returns the view in which a point carries the noise class
    exactly when its query returns at most [min_k] points while the query
    of some point returns more, every other point being untouched; the log
    has the one entry that tells which of the three outcomes occurred.  The
    result is written without the schedule and the number of threads. *)
Theorem run_radius_method (hw : nat) (cfg : Config F) (inView : PointView F)
  (sched : list nat) :
  inView <> [] ->
  iequals (m_method cfg) "statistical" = false ->
  iequals (m_method cfg) "radius" = true ->
  run build (ready hw cfg).1 inView sched =
  {| viewSet := [InView];
     view_after :=
       imap (labelled cfg (radius_keeps cfg (build inView)) (length inView))
            inView;
     log := outcome_log (radius_keeps cfg (build inView)) (length inView) |}.
Proof.
  intros Hne Hs Hr. rewrite ready_fst.
  apply (run_radius_threads (with_threads cfg _) inView sched);
    [simpl; lia|done..].
Qed.

(** X8: the statistical method, end to end.  For a view that has a point,
    [run] after [ready] returns the view in which a point carries the noise
    class exactly when its local mean is not below the threshold of all
    the local means while the local mean of some point is, every other
    point being untouched.  The result is written without the schedule and
    the number of threads. *)
Theorem run_statistical_method (hw : nat) (cfg : Config F)
  (inView : PointView F) (sched : list nat) :
  inView <> [] ->
  iequals (m_method cfg) "statistical" = true ->
  run build (ready hw cfg).1 inView sched =
  {| viewSet := [InView];
     view_after :=
       imap (labelled cfg (statistical_keeps cfg (build inView)
                             (length inView)) (length inView))
            inView;
     log := outcome_log (statistical_keeps cfg (build inView) (length inView))
                        (length inView) |}.
Proof.
  intros Hne Hs. rewrite ready_fst.
  apply (run_statistical_threads (with_threads cfg _) inView sched);
    [simpl; lia|done..].
Qed.

(** X9: the result of [run] does not depend on the interleaving of the
    tasks nor on the number of threads, as long as there is one: the same
    view, the same returned set and the same log. *)
Theorem run_schedule_free (cfg : Config F) (inView : PointView F)
  (n1 n2 : nat) (sched1 sched2 : list nat) :
  1 <= n1 -> 1 <= n2 ->
  run build (with_threads cfg n1) inView sched1 =
  run build (with_threads cfg n2) inView sched2.
Proof.
  intros Hn1 Hn2. destruct inView as [|pt inView]; [done|].
  destruct (iequals (m_method cfg) "statistical") eqn:Hs.
  - rewrite (run_statistical_threads (with_threads cfg n1)) by done.
    by rewrite (run_statistical_threads (with_threads cfg n2)) by done.
  - destruct (iequals (m_method cfg) "radius") eqn:Hr.
    + rewrite (run_radius_threads (with_threads cfg n1)) by done.
      by rewrite (run_radius_threads (with_threads cfg n2)) by done.
    + unfold run, select_indices. cbn [m_method with_threads].
      by rewrite Hs, Hr.
Qed.

(** X10: [processStatistical] returns the same two lists for every
    interleaving and every number of threads, as long as there is one. *)
Theorem processStatistical_schedule_free (cfg : Config F)
  (inView : PointView F) (n1 n2 : nat) (sched1 sched2 : list nat) :
  1 <= n1 -> 1 <= n2 ->
  processStatistical build (with_threads cfg n1) inView sched1 =
  processStatistical build (with_threads cfg n2) inView sched2.
Proof.
  intros Hn1 Hn2.
  rewrite (processStatistical_all_local_means (with_threads cfg n1)) by done.
  by rewrite (processStatistical_all_local_means (with_threads cfg n2))
    by done.
Qed.

(** X11: [processRadius] returns the same points as inliers and the same
    points as outliers for every interleaving and every number of threads,
    as long as there is one; only the order within a list varies. *)
Theorem processRadius_schedule_free (cfg : Config F) (inView : PointView F)
  (n1 n2 : nat) (sched1 sched2 : list nat) :
  1 <= n1 -> 1 <= n2 ->
  inliers (processRadius build (with_threads cfg n1) inView sched1) ≡ₚ
  inliers (processRadius build (with_threads cfg n2) inView sched2) /\
  outliers (processRadius build (with_threads cfg n1) inView sched1) ≡ₚ
  outliers (processRadius build (with_threads cfg n2) inView sched2).
Proof.
  intros Hn1 Hn2.
  destruct (processRadius_filter build (with_threads cfg n1) inView sched1)
    as [Hin1 Hout1]; [done|].
  destruct (processRadius_filter build (with_threads cfg n2) inView sched2)
    as [Hin2 Hout2]; [done|].
  split; [by rewrite Hin1, Hin2|by rewrite Hout1, Hout2].
Qed.

(** X12: when [run] reports that it labelled [n] outliers, [n] is at least
    1 and less than the number of points: some point is labelled and some
    point is not. *)
Theorem labeled_outliers_count (hw : nat) (cfg : Config F)
  (inView : PointView F) (sched : list nat) (n : nat) :
  In (LabeledOutliers n) (log (run build (ready hw cfg).1 inView sched)) ->
  1 <= n < length inView.
Proof.
  assert (Hcount : forall keep : PointId -> bool,
            In (LabeledOutliers n) (outcome_log keep (length inView)) ->
            1 <= n < length inView).
  { intros keep. unfold outcome_log.
    destruct (existsb keep _) eqn:Hex; cbn [negb];
      [|intros [Hn|[]]; discriminate].
    destruct (forallb keep _) eqn:Hall; [intros [Hn|[]]; discriminate|].
    intros [[= <-]|[]].
    pose proof (length_filter_split keep (seq 0 (length inView))) as Hlen.
    rewrite length_seq in Hlen.
    pose proof (empty_filter keep (seq 0 (length inView))) as He1.
    pose proof (empty_filter_negb keep (seq 0 (length inView))) as He2.
    rewrite Hex in He1. rewrite Hall in He2.
    destruct (List.filter keep _), (List.filter (fun x => negb (keep x)) _);
      simpl in *; try discriminate; lia. }
  destruct inView as [|pt inView]; [intros []|].
  destruct (iequals (m_method cfg) "statistical") eqn:Hs.
  - rewrite run_statistical_method by done. apply Hcount.
  - destruct (iequals (m_method cfg) "radius") eqn:Hr.
    + rewrite run_radius_method by done. apply Hcount.
    + unfold run, select_indices. rewrite ready_fst.
      cbn [m_method with_threads length Nat.eqb]. rewrite Hs, Hr.
      intros [Hn|[]]. discriminate.
Qed.

End RunFacts.

(** ** Edges of the configuration *)

Section ConfigEdges.
Context {F : Type} `{DoubleOps F}.
Variable build : PointView F -> KD3Index F.

Lemma existsb_false {A} (f : A -> bool) (l : list A) :
  (forall x, In x l -> f x = false) -> existsb f l = false.
Proof.
  intros Hf. destruct (existsb f l) eqn:Hex; [|done].
  apply existsb_exists in Hex as (x & Hx & Hfx). by rewrite Hf in Hfx.
Qed.

Lemma imap_same {A} (f : nat -> A -> A) (l : list A) :
  (forall i x, l !! i = Some x -> f i x = x) -> imap f l = l.
Proof.
  intros Hf. apply list_eq. intros i. rewrite list_lookup_imap.
  destruct (l !! i) as [x|] eqn:Hi; [|done]. simpl. by rewrite (Hf i x).
Qed.

(** X13: a negative [min_k] is accepted and, converted to [size_t], is
    larger than every count: with the radius method every point fails the
    test, [processRadius] returns no inlier, and [run] reports that the
    filter would remove every point and returns the view untouched. *)
Theorem radius_negative_minK (hw : nat) (cfg : Config F)
  (inView : PointView F) (sched : list nat) :
  (INT_MIN <= m_minK cfg < 0)%Z ->
  (forall p, length (kd_radius (build inView) p (m_radius cfg))
             <= length inView) ->
  (Z.of_nat (length inView) < 2 ^ 63)%Z ->
  inView <> [] ->
  iequals (m_method cfg) "statistical" = false ->
  iequals (m_method cfg) "radius" = true ->
  inliers (processRadius build (ready hw cfg).1 inView sched) = [] /\
  run build (ready hw cfg).1 inView sched =
  {| viewSet := [InView]; view_after := inView;
     log := [WouldRemoveAllPoints] |}.
Proof.
  intros HminK Hcount Hlen Hne Hs Hr.
  assert (Hkeep : forall p, radius_keeps cfg (build inView) p = false).
  { intros p. apply enough_neighbors_negative.
    - unfold INT_MIN, UINT64_MOD in *. lia.
    - specialize (Hcount p). unfold INT_MIN, UINT64_MOD in *. lia. }
  assert (Hex : existsb (radius_keeps cfg (build inView))
                        (seq 0 (length inView)) = false).
  { apply existsb_false. auto. }
  split.
  - rewrite ready_fst.
    destruct (processRadius_filter build
                (with_threads cfg (Nat.max 1 (m_threads cfg))) inView sched)
      as [Hin _]; [simpl; lia|].
    change (radius_keeps (with_threads cfg _) (build inView))
      with (radius_keeps cfg (build inView)) in Hin.
    pose proof (empty_filter (radius_keeps cfg (build inView))
                  (seq 0 (length inView))) as He.
    rewrite Hex in He. destruct (List.filter _ _); [|done].
    by apply Permutation_nil_r in Hin.
  - rewrite run_radius_method by done. unfold outcome_log, labelled.
    rewrite Hex. cbn [negb andb]. f_equal. by apply imap_same.
Qed.

(** X14: with the radius method a larger [min_k] never makes an inlier of
    a point that a smaller one makes an outlier: the inliers for
    [k2 >= k1 >= 0] are inliers for [k1], under any two schedules. *)
Theorem radius_minK_monotone (cfg : Config F) (inView : PointView F)
  (sched1 sched2 : list nat) (k1 k2 : Z) (p : PointId) :
  (0 <= k1 <= k2)%Z -> (k2 <= INT_MAX)%Z ->
  1 <= m_threads cfg ->
  In p (inliers (processRadius build (with_minK cfg k2) inView sched2)) ->
  In p (inliers (processRadius build (with_minK cfg k1) inView sched1)).
Proof.
  intros Hk Hk2 Hthreads Hp.
  destruct (processRadius_filter build (with_minK cfg k2) inView sched2)
    as [Hin2 _]; [done|].
  destruct (processRadius_filter build (with_minK cfg k1) inView sched1)
    as [Hin1 _]; [done|].
  apply list_elem_of_In. rewrite Hin1.
  apply list_elem_of_In in Hp. rewrite Hin2 in Hp.
  apply list_elem_of_In, filter_In in Hp as [Hseq Hkeep].
  apply list_elem_of_In, filter_In. split; [done|].
  unfold radius_keeps in *.
  apply enough_neighbors_spec in Hkeep; [|simpl; lia].
  apply enough_neighbors_spec; [simpl; lia|].
  simpl in *. lia.
Qed.

(** X15: with [mean_k] 0 or -1 the loop over the neighbours does not run:
    every local mean is the [0.0] the vector was filled with, whatever the
    points and the schedule. *)
Theorem local_means_degenerate (hw : nat) (cfg : Config F)
  (inView : PointView F) (sched : list nat) :
  (-1 <= m_meanK cfg <= 0)%Z ->
  local_means build (ready hw cfg).1 inView sched =
  replicate (length inView) fzero.
Proof.
  intros HK.
  rewrite (local_means_schedule_free build _ inView sched
             (ready_threads hw cfg)).
  apply list_eq. intros i. rewrite list_lookup_fmap.
  destruct (decide (i < length inView)) as [Hi|Hi].
  - rewrite lookup_seq_lt by done. symmetry.
    rewrite (proj2 (lookup_replicate _ _ _ _)) by done. simpl. f_equal.
    unfold expected_local_mean, local_mean, knn_count.
    destruct (ready_fields hw cfg) as (_ & _ & _ & -> & _).
    assert (m_meanK cfg = -1 \/ m_meanK cfg = 0)%Z as [->| ->] by lia;
      reflexivity.
  - rewrite lookup_seq_ge by lia. symmetry. apply lookup_replicate_None. lia.
Qed.

End ConfigEdges.

(** ** One point *)

Section OnePoint.
Variable build : PointView float -> KD3Index float.

(** X17: in binary64, for a view of one point the statistical method puts
    the point among the outliers, whatever the point, the configuration and
    the schedule, and [run] reports that the filter would remove every
    point and returns the view untouched. *)
Theorem statistical_one_point (cfg : Config float) (pt : Point float)
  (sched : list nat) :
  iequals (m_method cfg) "statistical" = true ->
  run build cfg [pt] sched =
  {| viewSet := [InView]; view_after := [pt]; log := [WouldRemoveAllPoints] |}.
Proof.
  intros Hm. unfold run, select_indices. cbn [length Nat.eqb].
  by rewrite Hm, (processStatistical_single build).
Qed.

End OnePoint.

(** ** The further properties on the sample *)

Section FurtherSample.

Lemma label_outliers_set_witness :
  label_outliers (sample_cfg "radius") sample_view [3; 1] =
    label_outliers (sample_cfg "radius") sample_view [1; 3; 3] /\
  label_outliers (sample_cfg "radius")
    (label_outliers (sample_cfg "radius") sample_view [3; 1]) [1; 3; 3] =
    label_outliers (sample_cfg "radius") sample_view [3; 1].
Proof.
  apply (label_outliers_set (sample_cfg "radius") sample_view [3; 1] [1; 3; 3]).
  intros i. simpl. tauto.
Defined.

Lemma run_radius_method_witness :
  run sample_index (ready 4 (sample_cfg "Radius")).1 sample_view [1; 0; 1] =
  {| viewSet := [InView];
     view_after :=
       imap (labelled (sample_cfg "Radius")
               (radius_keeps (sample_cfg "Radius") (sample_index sample_view))
               (length sample_view))
            sample_view;
     log := outcome_log
              (radius_keeps (sample_cfg "Radius") (sample_index sample_view))
              (length sample_view) |}.
Proof.
  apply (run_radius_method sample_index 4 (sample_cfg "Radius") sample_view
           [1; 0; 1]).
  - discriminate.
  - reflexivity.
  - reflexivity.
Defined.

Lemma run_statistical_method_witness :
  run sample_index (ready 4 (sample_cfg "STATISTICAL")).1 sample_view [1; 1] =
  {| viewSet := [InView];
     view_after :=
       imap (labelled (sample_cfg "STATISTICAL")
               (statistical_keeps (sample_cfg "STATISTICAL")
                  (sample_index sample_view) (length sample_view))
               (length sample_view))
            sample_view;
     log := outcome_log
              (statistical_keeps (sample_cfg "STATISTICAL")
                 (sample_index sample_view) (length sample_view))
              (length sample_view) |}.
Proof.
  apply (run_statistical_method sample_index 4 (sample_cfg "STATISTICAL")
           sample_view [1; 1]).
  - discriminate.
  - reflexivity.
Defined.

Lemma run_schedule_free_witness :
  run sample_index (with_threads (sample_cfg "radius") 1) sample_view [] =
  run sample_index (with_threads (sample_cfg "radius") 8) sample_view
      [7; 3; 5; 1; 0; 2].
Proof.
  apply (run_schedule_free sample_index (sample_cfg "radius") sample_view 1 8);
    lia.
Defined.

Lemma processStatistical_schedule_free_witness :
  processStatistical sample_index (with_threads (sample_cfg "statistical") 1)
    sample_view [] =
  processStatistical sample_index (with_threads (sample_cfg "statistical") 8)
    sample_view [7; 3; 5; 1; 0; 2].
Proof.
  apply (processStatistical_schedule_free sample_index
           (sample_cfg "statistical") sample_view 1 8); lia.
Defined.

Lemma processRadius_schedule_free_witness :
  inliers (processRadius sample_index (with_threads (sample_cfg "radius") 1)
             sample_view []) ≡ₚ
  inliers (processRadius sample_index (with_threads (sample_cfg "radius") 8)
             sample_view [7; 3; 5; 1; 0; 2]) /\
  outliers (processRadius sample_index (with_threads (sample_cfg "radius") 1)
              sample_view []) ≡ₚ
  outliers (processRadius sample_index (with_threads (sample_cfg "radius") 8)
              sample_view [7; 3; 5; 1; 0; 2]).
Proof.
  apply (processRadius_schedule_free sample_index (sample_cfg "radius")
           sample_view 1 8); lia.
Defined.

Lemma labeled_outliers_count_witness : 1 <= 1 < length sample_view.
Proof.
  apply (labeled_outliers_count sample_index 4 (sample_cfg "radius")
           sample_view [] 1).
  vm_compute. left. reflexivity.
Defined.

Lemma radius_negative_minK_witness :
  inliers (processRadius sample_index
             (ready 4 (with_minK (sample_cfg "radius") (-1))).1
             sample_view []) = [] /\
  run sample_index (ready 4 (with_minK (sample_cfg "radius") (-1))).1
      sample_view [] =
  {| viewSet := [InView]; view_after := sample_view;
     log := [WouldRemoveAllPoints] |}.
Proof.
  apply (radius_negative_minK sample_index 4
           (with_minK (sample_cfg "radius") (-1)) sample_view []).
  - unfold INT_MIN. simpl. lia.
  - intros p. cbn [sample_index kd_radius].
    destruct (sample_view !! p); [|simpl; lia].
    etransitivity; [apply List.filter_length_le|]. by rewrite length_seq.
  - simpl. lia.
  - discriminate.
  - reflexivity.
  - reflexivity.
Defined.

Lemma radius_minK_monotone_witness :
  In 0 (inliers (processRadius sample_index
                   (with_minK (sample_cfg "radius") 0) sample_view [1; 0])).
Proof.
  apply (radius_minK_monotone sample_index (sample_cfg "radius") sample_view
           [1; 0] [] 0 2 0).
  - lia.
  - unfold INT_MAX. simpl. lia.
  - simpl. lia.
  - vm_compute. left. reflexivity.
Defined.

Lemma local_means_degenerate_witness :
  local_means sample_index
    (ready 4 (with_meanK (sample_cfg "statistical") 0)).1 sample_view [] =
  replicate (length sample_view) fzero.
Proof.
  apply (local_means_degenerate sample_index 4
           (with_meanK (sample_cfg "statistical") 0) sample_view []).
  simpl. lia.
Defined.

Lemma statistical_one_point_witness :
  run sample_index (sample_cfg "statistical") [sample_point 0] [] =
  {| viewSet := [InView]; view_after := [sample_point 0];
     log := [WouldRemoveAllPoints] |}.
Proof.
  apply (statistical_one_point sample_index (sample_cfg "statistical")
           (sample_point 0) []).
  reflexivity.
Defined.

End FurtherSample.
